(** * Verification of the HLS chunk manager (src/lib/chunk-manager.ts)

    A shallow embedding of [ChunkManager], [Playlist] and [Chunk]:
    the playlist registry is an insertion-ordered association list (a JS
    [Map]), the session slot is an [option Chunk], thrown values are a sum
    type, and calls made to the outside (the loader, the caller's
    callbacks) are returned as a list of effects; how a call of a callback
    ends (it returns or it throws) is a parameter.  Strings are sequences
    of 8-bit characters, which covers the urls and tags the code handles. *)

From Stdlib Require Import String Ascii List ZArith Lia Bool DecimalString.
Import ListNotations.

Local Open Scope string_scope.
Local Open Scope Z_scope.

(** ** JavaScript string built-ins used by the source *)

(** The line feed written [\n] in the source's string literals. *)
Definition nl : string := String (ascii_of_nat 10) EmptyString.

(** [s.endsWith(search)]: compare the last [search.length] characters. *)
Definition endsWith (s search : string) : bool :=
  let len := Z.of_nat (String.length s) in
  let searchLength := Z.of_nat (String.length search) in
  let start := len - searchLength in
  if start <? 0 then false
  else String.eqb (substring (Z.to_nat start) (String.length search) s) search.

(** [s.lastIndexOf(c)] for a one-character search string: the scan keeps the
    position of the latest occurrence seen, [-1] when there is none. *)
Fixpoint lastIndexOf_from (c : ascii) (s : string) (i found : Z) : Z :=
  match s with
  | EmptyString => found
  | String a rest =>
      lastIndexOf_from c rest (i + 1) (if Ascii.eqb a c then i else found)
  end.

Definition lastIndexOf (s : string) (c : ascii) : Z :=
  lastIndexOf_from c s 0 (-1).

(** [s.substring(start, end)] with the arguments clamped to [0, length]
    and swapped when [start > end], as the language defines it. *)
Definition js_substring (s : string) (from to : Z) : string :=
  let len := Z.of_nat (String.length s) in
  let clamp x := Z.min (Z.max x 0) len in
  let a := Z.min (clamp from) (clamp to) in
  let b := Z.max (clamp from) (clamp to) in
  substring (Z.to_nat a) (Z.to_nat (b - a)) s.

(** Occurrence of a character in a string. *)
Fixpoint occurs (c : ascii) (s : string) : Prop :=
  match s with
  | EmptyString => False
  | String a rest => a = c \/ occurs c rest
  end.

(** ** Values thrown and results of fallible calls *)

Inductive Exn : Type :=
| ThrownString (msg : string)   (* [throw "..."] *)
| TypeError                     (* property access on [undefined] *)
| ExternalError (tag : string). (* raised by the fetch or parser adapter *)

Inductive Result (A : Type) : Type :=
| Ok (a : A)
| Throw (e : Exn).

Arguments Ok {A} a.
Arguments Throw {A} e.

Definition bind {A B : Type} (r : Result A) (k : A -> Result B) : Result B :=
  match r with
  | Ok a => k a
  | Throw e => Throw e
  end.

Notation "x <- r ;; k" := (bind r (fun x => k))
  (at level 61, r at next level, right associativity).

(** [a[i]] on a JS array: [undefined] (here [None]) out of range. *)
Definition js_index {A : Type} (l : list A) (i : Z) : option A :=
  if i <? 0 then None else nth_error l (Z.to_nat i).

(** ** An insertion-ordered [Map<string, V>] *)

(** [m.set(k, v)]: an existing key keeps its position, a new key goes last. *)
Fixpoint Map_set {V : Type} (k : string) (v : V) (m : list (string * V))
  : list (string * V) :=
  match m with
  | [] => [(k, v)]
  | (k', v') :: rest =>
      if String.eqb k' k then (k, v) :: rest
      else (k', v') :: Map_set k v rest
  end.

(** [m.delete(k)]. *)
Fixpoint Map_delete {V : Type} (k : string) (m : list (string * V))
  : list (string * V) :=
  match m with
  | [] => []
  | (k', v') :: rest =>
      if String.eqb k' k then Map_delete k rest
      else (k', v') :: Map_delete k rest
  end.

(** [m.get(k)]. *)
Fixpoint Map_get {V : Type} (k : string) (m : list (string * V)) : option V :=
  match m with
  | [] => None
  | (k', v') :: rest => if String.eqb k' k then Some v' else Map_get k rest
  end.

(** [Array.from(m.values())]: the values in insertion order. *)
Definition Map_values {V : Type} (m : list (string * V)) : list V :=
  map snd m.

(** ** The data model *)

Section ChunkManagerModel.

(** Numbers of the manifest (durations, sequence numbers) are only tested
    for truthiness and converted to text; both operations belong to the
    language, not to this program, and are taken as given. *)
Context {Num : Type}.
Variable num_truthy : Num -> bool.
Variable num_to_string : Num -> string.

(** One entry of [manifest.segments]. *)
Record Segment : Type := mkSegment {
  uri : string;
  duration : Num
}.

(** The manifest the parser produces; an absent field is [None]
    ([undefined] in the source). *)
Record Manifest : Type := mkManifest {
  endList : bool;
  segments : list Segment;
  playlistType : option string;
  targetDuration : option Num;
  mediaSequence : option Num;
  discontinuitySequence : option Num
}.

(** The parser and fetch adapters ([m3u8Parser], [Utils.fetchContent]). *)
Variable parse : string -> Result Manifest.
Variable fetchContent : string -> Result string.

(** Truthiness and text of an optional string or number field. *)
Definition truthy_string (v : option string) : bool :=
  match v with
  | Some s => negb (String.eqb s "")
  | None => false
  end.

Definition truthy_number (v : option Num) : bool :=
  match v with
  | Some n => num_truthy n
  | None => false
  end.

Definition text_of_string (v : option string) : string :=
  match v with
  | Some s => s
  | None => "undefined"
  end.

Definition text_of_number (v : option Num) : string :=
  match v with
  | Some n => num_to_string n
  | None => "undefined"
  end.

(** *** class Playlist *)

Record Playlist : Type := mkPlaylist {
  playlist_url : string;
  baseUrl : string;
  manifest : Manifest
}.

(** [new Playlist(url, manifest)]. *)
Definition new_Playlist (url : string) (m : Manifest) : Result Playlist :=
  let pos := lastIndexOf url "/"%char in
  if pos =? -1 then Throw (ThrownString "Unexpected playlist URL format")
  else Ok {| playlist_url := url;
             baseUrl := js_substring url 0 (pos + 1);
             manifest := m |}.

(** The loop of [getChunkIndex], entered at index [i]. *)
Fixpoint getChunkIndex_from (segs : list Segment) (i : Z) (url : string) : Z :=
  match segs with
  | [] => -1
  | s :: rest =>
      if endsWith url (uri s) then i
      else getChunkIndex_from rest (i + 1) url
  end.

Definition getChunkIndex (p : Playlist) (url : string) : Z :=
  getChunkIndex_from (segments (manifest p)) 0 url.

Definition limitedContentAvail (p : Playlist) : bool :=
  let m := manifest p in
  negb (endList m) && (Z.of_nat (length (segments m)) >? 0).

(** The segment loop of [getLimitedContent]: [fuel] iterations from index
    [i]; reading [s.duration] of an absent element raises a TypeError. *)
Fixpoint appendSegments (fuel : nat) (i : Z) (segs : list Segment)
  (content : string) : Result string :=
  match fuel with
  | O => Ok content
  | S fuel' =>
      match js_index segs i with
      | None => Throw TypeError
      | Some s =>
          let content :=
            content ++ ("#EXTINF:" ++ num_to_string (duration s) ++ nl) in
          let content := content ++ (uri s ++ nl) in
          appendSegments fuel' (i + 1) segs content
      end
  end.

Definition getLimitedContent (p : Playlist) (limit : Z) : Result string :=
  if negb (limitedContentAvail p) then
    Throw (ThrownString
             "Limited content allowed only for Live playlist with segments")
  else
    let m := manifest p in
    let content := "#EXTM3U" ++ nl ++ "#EXT-X-VERSION:3" ++ nl in
    let content :=
      if truthy_string (playlistType m) then
        content ++ ("#EXT-X-PLAYLIST-TYPE:"
                    ++ text_of_string (playlistType m) ++ nl)
      else content in
    let content :=
      if truthy_number (targetDuration m) then
        content ++ ("#EXT-X-TARGETDURATION:"
                    ++ text_of_number (targetDuration m) ++ nl)
      else content in
    let content :=
      if truthy_number (mediaSequence m) then
        content ++ ("#EXT-X-MEDIA-SEQUENCE:"
                    ++ text_of_number (mediaSequence m) ++ nl)
      else content in
    let content :=
      if truthy_number (discontinuitySequence m) then
        content ++ ("#EXT-X-DISCONTINUITY-SEQUENCE:"
                    ++ text_of_number (discontinuitySequence m) ++ nl)
      else content in
    (* for (let i = 0; i < m.segments.length - limit; ++i) *)
    appendSegments (Z.to_nat (Z.of_nat (length (segments m)) - limit)) 0
      (segments m) content.

(** *** class Chunk, loader files, and what the manager does to the outside *)

(** A function object passed by the caller, known by its identity. *)
Definition Callback : Type := nat.

(** Truthiness of a value of type [Function]: a function is an object, and
    every object is truthy. *)
Definition fn_truthy (f : Callback) : bool := true.

Record Chunk : Type := new_Chunk {
  chunk_url : string;
  onSuccess : Callback;
  onError : Callback
}.

(** Modelled from the spec: the [LoaderFile] class (./loader-file), a file
    [{url, data}] whose data is empty until the transport has loaded it. *)
Record LoaderFile : Type := mkLoaderFile {
  file_url : string;
  file_data : list Byte.byte
}.

Definition new_LoaderFile (url : string) : LoaderFile :=
  {| file_url := url; file_data := [] |}.

(** The argument a callback receives. *)
Inductive Arg : Type :=
| ArgData (data : list Byte.byte)
| ArgError (error : Exn).

(** How a call of a callback ends.  The callback is the caller's code: it
    returns, or it throws.  It is taken to make no call to the manager
    before it ends, so that a run is a sequence of complete calls. *)
Inductive Outcome : Type :=
| Returns
| Throws (e : Exn).

Variable outcome : Callback -> Arg -> Outcome.

(** Calls that leave the manager, and an exception that leaves a handler. *)
Inductive Effect : Type :=
| Invoke (f : Callback) (a : Arg)                    (* f(a) *)
| LoaderLoad (files : list LoaderFile) (key : string) (* loader.load(files, key) *)
| Escapes (e : Exn).              (* thrown by a callback, not caught here *)

(** *** class ChunkManager *)

Record ChunkManager : Type := mkChunkManager {
  playlists : list (string * Playlist);
  chunk : option Chunk
}.

Definition set_playlists (st : ChunkManager) (ps : list (string * Playlist))
  : ChunkManager :=
  {| playlists := ps; chunk := chunk st |}.

Definition set_chunk (st : ChunkManager) (c : option Chunk) : ChunkManager :=
  {| playlists := playlists st; chunk := c |}.

(** [new ChunkManager(loader)]. *)
Definition new_ChunkManager : ChunkManager :=
  {| playlists := []; chunk := None |}.

(** A throw leaves the registry as it was: the [set] is the last statement
    before the return. *)
Definition processHlsPlaylist (st : ChunkManager) (url content : string)
  : ChunkManager * Result Playlist :=
  match parse content with
  | Throw e => (st, Throw e)
  | Ok m =>
      match new_Playlist url m with
      | Throw e => (st, Throw e)
      | Ok playlist =>
          (set_playlists st (Map_set url playlist (playlists st)), Ok playlist)
      end
  end.

(** The [try] block of [loadHlsPlaylist]; [st] is the manager when the
    awaited fetch settles. *)
Definition loadHlsPlaylist_try (st : ChunkManager) (url : string)
  : ChunkManager * Result string :=
  match fetchContent url with
  | Throw e => (st, Throw e)
  | Ok content =>
      match processHlsPlaylist st url content with
      | (st1, Throw e) => (st1, Throw e)
      | (st1, Ok playlist) =>
          if limitedContentAvail playlist then
            let limit :=
              Z.quot (Z.of_nat (length (segments (manifest playlist)))) 2 in
            (st1, getLimitedContent playlist limit)
          else (st1, Ok content)
      end
  end.

(** [loadHlsPlaylist] with its [catch]: delete the entry and re-throw. *)
Definition loadHlsPlaylist (st : ChunkManager) (url : string)
  : ChunkManager * Result string :=
  match loadHlsPlaylist_try st url with
  | (st1, Throw e) =>
      (set_playlists st1 (Map_delete url (playlists st1)), Throw e)
  | (st1, Ok text) => (st1, Ok text)
  end.

(** The loop of [getChunkLocation] over the registry's values. *)
Fixpoint getChunkLocation_in (ps : list Playlist) (url : string)
  : option Playlist * Z :=
  match ps with
  | [] => (None, -1)
  | playlist :: rest =>
      let chunkIndex := getChunkIndex playlist url in
      if chunkIndex >=? 0 then (Some playlist, chunkIndex)
      else getChunkLocation_in rest url
  end.

Definition getChunkLocation (st : ChunkManager) (url : string)
  : option Playlist * Z :=
  getChunkLocation_in (Map_values (playlists st)) url.

(** The file loop of [loadChunk]: [fuel] iterations from index [i];
    reading [.uri] of an absent element raises a TypeError. *)
Fixpoint pushFiles (fuel : nat) (i : Z) (playlist : Playlist)
  (files : list LoaderFile) : Result (list LoaderFile) :=
  match fuel with
  | O => Ok files
  | S fuel' =>
      match js_index (segments (manifest playlist)) i with
      | None => Throw TypeError
      | Some s =>
          let fileUrl := baseUrl playlist ++ uri s in
          pushFiles fuel' (i + 1) playlist
            (files ++ [new_LoaderFile fileUrl])%list
      end
  end.

(** Lines 49 to 57 of [loadChunk]: the candidate files for a location. *)
Definition candidateFiles (location : option Playlist * Z) (url : string)
  : Result (list LoaderFile) :=
  match location with
  | (Some playlist, chunkIndex) =>
      let segs := segments (manifest playlist) in
      (* for (let i = chunkIndex; i < segments.length; ++i) *)
      pushFiles (Z.to_nat (Z.of_nat (length segs) - chunkIndex)) chunkIndex
        playlist []
  | (None, _) => Ok [new_LoaderFile url]
  end.

(** [loadChunk]: [files[0].url] raises a TypeError on an empty list, before
    the slot is written. *)
Definition loadChunk (st : ChunkManager) (url : string)
  (onSuccess onError : Callback) : Result (ChunkManager * list Effect) :=
  let location := getChunkLocation st url in
  files <- candidateFiles location url ;;
  match files with
  | [] => Throw TypeError
  | file0 :: _ =>
      let st1 :=
        set_chunk st (Some (new_Chunk (file_url file0) onSuccess onError)) in
      let key :=
        match fst location with
        | Some playlist => playlist_url playlist
        | None => url
        end in
      Ok (st1, [LoaderLoad files key])
  end.

Definition abortChunk (st : ChunkManager) (url : string) : ChunkManager :=
  match chunk st with
  | Some c => if String.eqb (chunk_url c) url then set_chunk st None else st
  | None => st
  end.

(** [if (f) { f(a); }]: the call when [f] is truthy, and how it ends. *)
Definition call_if_truthy (f : Callback) (a : Arg) : list Effect * Outcome :=
  if fn_truthy f then ([Invoke f a], outcome f a) else ([], Returns).

(** The callback is called first; [this.chunk = null] is the statement
    after the call, reached only when the call returns, and it overwrites
    whatever the slot then holds.  When the callback throws, the exception
    leaves the handler and the slot is what it was. *)
Definition onFileLoaded (st : ChunkManager) (file : LoaderFile)
  : ChunkManager * list Effect :=
  match chunk st with
  | Some c =>
      if String.eqb (chunk_url c) (file_url file) then
        let '(out, ended) :=
          call_if_truthy (onSuccess c) (ArgData (file_data file)) in
        match ended with
        | Returns => (set_chunk st None, out)
        | Throws e => (st, (out ++ [Escapes e])%list)
        end
      else (st, [])
  | None => (st, [])
  end.

Definition onFileError (st : ChunkManager) (url : string) (error : Exn)
  : ChunkManager * list Effect :=
  match chunk st with
  | Some c =>
      if String.eqb (chunk_url c) url then
        let '(out, ended) := call_if_truthy (onError c) (ArgError error) in
        match ended with
        | Returns => (set_chunk st None, out)
        | Throws e => (st, (out ++ [Escapes e])%list)
        end
      else (st, [])
  | None => (st, [])
  end.

(** ** Sequences of calls and transport events *)

(** [files[0].url] of [loadChunk(url, ...)]: the url the session is keyed
    by. *)
Definition targetUrl (st : ChunkManager) (url : string) : option string :=
  match candidateFiles (getChunkLocation st url) url with
  | Ok (file0 :: _) => Some (file_url file0)
  | _ => None
  end.

Inductive Op : Type :=
| CallLoadChunk (url : string) (onSuccess onError : Callback)
| CallAbortChunk (url : string)
| FileLoaded (file : LoaderFile)
| FileError (url : string) (error : Exn).

(** One call or event; a [loadChunk] that throws changes nothing. *)
Definition step (st : ChunkManager) (op : Op) : ChunkManager * list Effect :=
  match op with
  | CallLoadChunk url ok err =>
      match loadChunk st url ok err with
      | Ok r => r
      | Throw _ => (st, [])
      end
  | CallAbortChunk url => (abortChunk st url, [])
  | FileLoaded file => onFileLoaded st file
  | FileError url error => onFileError st url error
  end.

Fixpoint run (st : ChunkManager) (ops : list Op) : ChunkManager * list Effect :=
  match ops with
  | [] => (st, [])
  | op :: rest =>
      let '(st1, out1) := step st op in
      let '(st2, out2) := run st1 rest in
      (st2, (out1 ++ out2)%list)
  end.

(** Whether [f] is called somewhere in a list of effects. *)
Definition invoked (f : Callback) (out : list Effect) : bool :=
  existsb (fun e => match e with
                    | Invoke g _ => Nat.eqb g f
                    | LoaderLoad _ _ | Escapes _ => false
                    end) out.

(** The callback invocations among a list of effects. *)
Definition invocations (out : list Effect) : list (Callback * Arg) :=
  flat_map (fun e => match e with
                     | Invoke g a => [(g, a)]
                     | LoaderLoad _ _ | Escapes _ => []
                     end) out.

(** ** The truncated document, as the specification describes it *)

Definition fixed_header : list string := ["#EXTM3U"; "#EXT-X-VERSION:3"].

Definition tag_line (name text : string) : string := name ++ text.

Definition optional_tags (m : Manifest) : list string :=
  ((if truthy_string (playlistType m)
    then [tag_line "#EXT-X-PLAYLIST-TYPE:" (text_of_string (playlistType m))]
    else [])
   ++ (if truthy_number (targetDuration m)
       then [tag_line "#EXT-X-TARGETDURATION:"
               (text_of_number (targetDuration m))]
       else [])
   ++ (if truthy_number (mediaSequence m)
       then [tag_line "#EXT-X-MEDIA-SEQUENCE:"
               (text_of_number (mediaSequence m))]
       else [])
   ++ (if truthy_number (discontinuitySequence m)
       then [tag_line "#EXT-X-DISCONTINUITY-SEQUENCE:"
               (text_of_number (discontinuitySequence m))]
       else []))%list.

Definition extinf_line (s : Segment) : string :=
  tag_line "#EXTINF:" (num_to_string (duration s)).

Definition segment_pair (s : Segment) : list string := [extinf_line s; uri s].

(** Every line followed by a line feed. *)
Fixpoint unlines (ls : list string) : string :=
  match ls with
  | [] => ""
  | l :: rest => l ++ nl ++ unlines rest
  end.

(** The document with the header, the optional tags and the pairs of the
    given segments, and nothing after them. *)
Definition document_of (m : Manifest) (kept : list Segment) : string :=
  unlines (fixed_header ++ optional_tags m ++ flat_map segment_pair kept)%list.

(** The tag lines of that document (everything but the segments' URIs). *)
Definition tag_lines (m : Manifest) (kept : list Segment) : list string :=
  (fixed_header ++ optional_tags m ++ map extinf_line kept)%list.

Definition end_marker : string := "#EXT-X-ENDLIST".

(** [t] is a suffix of [s]: the url "ends with" the segment's URI. *)
Definition is_suffix (t s : string) : Prop := exists pre, s = pre ++ t.

(** [url] contains a path separator. *)
Definition has_separator (url : string) : Prop := occurs "/"%char url.

(** The active session is keyed by [url]. *)
Definition session_matches (st : ChunkManager) (url : string) : Prop :=
  exists c, chunk st = Some c /\ chunk_url c = url.

(** Transport events, as opposed to calls of the public methods. *)
Definition is_transport (op : Op) : bool :=
  match op with
  | FileLoaded _ | FileError _ _ => true
  | CallLoadChunk _ _ _ | CallAbortChunk _ => false
  end.

(** The loader file of a segment of a playlist: its absolute url. *)
Definition segment_file (p : Playlist) (s : Segment) : LoaderFile :=
  new_LoaderFile (baseUrl p ++ uri s).

(** The lookup of [url] in the registry ends at playlist [P] with index
    [i]: [P] is the first stored playlist, in the registry's order, in which
    [url] is located, and [i] is where. *)
Definition located (st : ChunkManager) (url : string) (P : Playlist) (i : Z)
  : Prop :=
  exists before after,
    Map_values (playlists st) = (before ++ P :: after)%list
    /\ (forall Q, In Q before -> getChunkIndex Q url = -1)
    /\ getChunkIndex P url = i
    /\ 0 <= i.

(** [url] is located in no stored playlist. *)
Definition unlocated (st : ChunkManager) (url : string) : Prop :=
  forall Q, In Q (Map_values (playlists st)) -> getChunkIndex Q url = -1.

(** The step of [loadHlsPlaylist(url)] that throws [e]: the fetch, the
    parser, or the [Playlist] constructor on a url without separator. *)
Definition failing_step (url : string) (e : Exn) : Prop :=
  fetchContent url = Throw e
  \/ (exists content, fetchContent url = Ok content /\ parse content = Throw e)
  \/ (exists content m,
        fetchContent url = Ok content /\ parse content = Ok m
        /\ ~ has_separator url
        /\ e = ThrownString "Unexpected playlist URL format").

(** ** Notions used to state properties of whole runs and of the registry *)

(** The keys of a map, in insertion order. *)
Definition Map_keys {V : Type} (m : list (string * V)) : list string :=
  map fst m.

(** The number of [loadChunk] calls in a sequence. *)
Definition count_loads (ops : list Op) : nat :=
  length (filter (fun op => match op with
                            | CallLoadChunk _ _ _ => true
                            | _ => false
                            end) ops).

(** The callbacks handed to the [loadChunk] calls of a sequence. *)
Definition registered_callbacks (ops : list Op) : list Callback :=
  flat_map (fun op => match op with
                      | CallLoadChunk _ ok err => [ok; err]
                      | _ => []
                      end) ops.

(** The [loader.load] calls among a list of effects. *)
Definition loader_calls (out : list Effect) : list (list LoaderFile * string) :=
  flat_map (fun e => match e with
                     | LoaderLoad files key => [(files, key)]
                     | Invoke _ _ | Escapes _ => []
                     end) out.

(** The url a transport event is about. *)
Definition event_url (op : Op) : option string :=
  match op with
  | FileLoaded file => Some (file_url file)
  | FileError url _ => Some url
  | CallLoadChunk _ _ _ | CallAbortChunk _ => None
  end.

(** One if a session is pending, zero otherwise. *)
Definition pending (st : ChunkManager) : nat :=
  match chunk st with
  | Some _ => 1
  | None => 0
  end.

(** The calls, among a list of calls, that return. *)
Definition returned (calls : list (Callback * Arg)) : list (Callback * Arg) :=
  filter (fun call => match outcome (fst call) (snd call) with
                      | Returns => true
                      | Throws _ => false
                      end) calls.

(** A registry entry is filed under its playlist's own url, and the
    playlist's [baseUrl] is that url up to and including its last "/". *)
Definition entry_ok (entry : string * Playlist) : Prop :=
  playlist_url (snd entry) = fst entry
  /\ exists pre rest,
      fst entry = pre ++ String "/"%char rest
      /\ ~ occurs "/"%char rest
      /\ baseUrl (snd entry) = pre ++ String "/"%char "".

(** The registry has one entry per url and every entry is in order. *)
Definition registry_wf (st : ChunkManager) : Prop :=
  NoDup (Map_keys (playlists st)) /\ Forall entry_ok (playlists st).

(** ** Facts about the string built-ins *)

Lemma append_nil_r (s : string) : s ++ "" = s.
Proof. induction s as [|a s IH]; simpl; [reflexivity | now rewrite IH]. Qed.

Lemma append_assoc (a b c : string) : (a ++ b) ++ c = a ++ (b ++ c).
Proof. induction a as [|x a IH]; simpl; [reflexivity | now rewrite IH]. Qed.

Lemma length_append (a b : string) :
  String.length (a ++ b) = (String.length a + String.length b)%nat.
Proof. induction a as [|x a IH]; simpl; [reflexivity | now rewrite IH]. Qed.

Lemma substring_all (t : string) : substring 0 (String.length t) t = t.
Proof. induction t as [|x t IH]; simpl; [reflexivity | now rewrite IH]. Qed.

Lemma substring_skip (p t : string) :
  substring (String.length p) (String.length t) (p ++ t) = t.
Proof. induction p as [|x p IH]; simpl; [apply substring_all | exact IH]. Qed.

Lemma substring_take (p t : string) :
  substring 0 (String.length p) (p ++ t) = p.
Proof.
  induction p as [|x p IH]; simpl.
  - destruct t; reflexivity.
  - now rewrite IH.
Qed.

Lemma substring_split (n : nat) : forall s : string,
  (n <= String.length s)%nat ->
  s = substring 0 n s ++ substring n (String.length s - n) s.
Proof.
  induction n as [|n IH]; intros s Hn.
  - rewrite Nat.sub_0_r, substring_all. destruct s; reflexivity.
  - destruct s as [|a s]; simpl in Hn; [lia|].
    simpl. f_equal. apply IH. lia.
Qed.

(** [endsWith] decides the suffix relation. *)
Lemma endsWith_spec (s t : string) :
  endsWith s t = true <-> exists p, s = p ++ t.
Proof.
  unfold endsWith. split.
  - destruct (Z.ltb_spec (Z.of_nat (String.length s)
                          - Z.of_nat (String.length t)) 0) as [Hlt|Hge];
      [discriminate|].
    intros H. apply String.eqb_eq in H.
    replace (Z.to_nat (Z.of_nat (String.length s) - Z.of_nat (String.length t)))
      with (String.length s - String.length t)%nat in H by lia.
    exists (substring 0 (String.length s - String.length t) s).
    rewrite (substring_split (String.length s - String.length t) s) at 1 by lia.
    f_equal.
    replace (String.length s - (String.length s - String.length t))%nat
      with (String.length t) by lia.
    exact H.
  - intros [p ->]. rewrite length_append.
    destruct (Z.ltb_spec (Z.of_nat (String.length p + String.length t)
                          - Z.of_nat (String.length t)) 0) as [Hlt|Hge];
      [lia|].
    replace (Z.to_nat (Z.of_nat (String.length p + String.length t)
                       - Z.of_nat (String.length t)))
      with (String.length p) by lia.
    rewrite substring_skip. apply String.eqb_refl.
Qed.

Lemma endsWith_false (s t : string) :
  endsWith s t = false <-> ~ exists p, s = p ++ t.
Proof.
  rewrite <- endsWith_spec. destruct (endsWith s t); split; intros H;
    try reflexivity; try discriminate; try (intros E; discriminate).
  exfalso. apply H. reflexivity.
Qed.

Lemma occurs_dec (c : ascii) (s : string) : {occurs c s} + {~ occurs c s}.
Proof using Type.
  induction s as [|a s IH]; simpl.
  - right. intros [].
  - destruct (ascii_dec a c) as [->|Hne]; [left; now left|].
    destruct IH as [H|H]; [left; now right|].
    right. intros [E|E]; [exact (Hne E) | exact (H E)].
Qed.

Lemma occurs_append (c : ascii) (p r : string) : occurs c (p ++ String c r).
Proof. induction p as [|a p IH]; simpl; [now left | now right]. Qed.

(** A string that contains [c] splits at the last occurrence of [c]. *)
Lemma occurs_last_split (c : ascii) (s : string) :
  occurs c s -> exists p r, s = p ++ String c r /\ ~ occurs c r.
Proof using Type.
  induction s as [|a s IH]; simpl; [intros []|].
  intros H. destruct (occurs_dec c s) as [Hin|Hout].
  - destruct (IH Hin) as (p & r & -> & Hr).
    exists (String a p), r. now split.
  - destruct H as [->|H]; [|contradiction].
    exists "", s. now split.
Qed.

Lemma lastIndexOf_from_absent (c : ascii) (s : string) :
  ~ occurs c s -> forall i found, lastIndexOf_from c s i found = found.
Proof using Type.
  induction s as [|a s IH]; simpl; intros H i found; [reflexivity|].
  destruct (Ascii.eqb_spec a c) as [->|Hne]; [exfalso; apply H; now left|].
  apply IH. intros Hs. apply H. now right.
Qed.

Lemma lastIndexOf_from_split (c : ascii) (p r : string) :
  ~ occurs c r ->
  forall i found,
    lastIndexOf_from c (p ++ String c r) i found
    = i + Z.of_nat (String.length p).
Proof.
  intros Hr. induction p as [|a p IH]; intros i found.
  - simpl. rewrite Ascii.eqb_refl, lastIndexOf_from_absent by assumption. lia.
  - cbn [append lastIndexOf_from String.length]. rewrite IH. lia.
Qed.

Lemma lastIndexOf_split (c : ascii) (p r : string) :
  ~ occurs c r ->
  lastIndexOf (p ++ String c r) c = Z.of_nat (String.length p).
Proof. intros Hr. unfold lastIndexOf. now rewrite lastIndexOf_from_split. Qed.

Lemma lastIndexOf_absent (c : ascii) (s : string) :
  lastIndexOf s c = -1 <-> ~ occurs c s.
Proof using Type.
  split.
  - intros H Hin. destruct (occurs_last_split c s Hin) as (p & r & -> & Hr).
    rewrite lastIndexOf_split in H by assumption. lia.
  - intros H. unfold lastIndexOf. now apply lastIndexOf_from_absent.
Qed.

(** [substring(0, pos + 1)] at the last occurrence keeps the prefix and the
    character itself. *)
Lemma js_substring_through (c : ascii) (p r : string) :
  js_substring (p ++ String c r) 0 (Z.of_nat (String.length p) + 1)
  = p ++ String c "".
Proof.
  unfold js_substring.
  assert (Hlen : String.length (p ++ String c r)
                 = (String.length p + S (String.length r))%nat)
    by (rewrite length_append; reflexivity).
  rewrite Hlen.
  replace (Z.min (Z.max 0 0) (Z.of_nat (String.length p + S (String.length r))))
    with 0 by lia.
  replace (Z.min (Z.max (Z.of_nat (String.length p) + 1) 0)
             (Z.of_nat (String.length p + S (String.length r))))
    with (Z.of_nat (String.length p) + 1) by lia.
  replace (Z.min 0 (Z.of_nat (String.length p) + 1)) with 0 by lia.
  replace (Z.max 0 (Z.of_nat (String.length p) + 1))
    with (Z.of_nat (String.length p) + 1) by lia.
  replace (Z.to_nat (Z.of_nat (String.length p) + 1 - 0))
    with (String.length (p ++ String c "")) by (rewrite length_append; simpl; lia).
  change (Z.to_nat 0) with 0%nat.
  replace (p ++ String c r) with ((p ++ String c "") ++ r)
    by (rewrite append_assoc; reflexivity).
  apply substring_take.
Qed.

(** ** Facts about the map *)

Lemma Map_get_set_same {V : Type} k (v : V) m :
  Map_get k (Map_set k v m) = Some v.
Proof.
  induction m as [|[k' v'] m IH]; simpl.
  - now rewrite String.eqb_refl.
  - destruct (String.eqb_spec k' k) as [->|Hne]; simpl.
    + now rewrite String.eqb_refl.
    + destruct (String.eqb_spec k' k); [contradiction | exact IH].
Qed.

Lemma Map_get_delete_same {V : Type} k (m : list (string * V)) :
  Map_get k (Map_delete k m) = None.
Proof.
  induction m as [|[k' v'] m IH]; simpl; [reflexivity|].
  destruct (String.eqb_spec k' k) as [->|Hne]; simpl; [exact IH|].
  destruct (String.eqb_spec k' k); [contradiction | exact IH].
Qed.

Lemma Map_get_delete_other {V : Type} k k' (m : list (string * V)) :
  k' <> k -> Map_get k' (Map_delete k m) = Map_get k' m.
Proof.
  intros Hne. induction m as [|[k0 v0] m IH]; simpl; [reflexivity|].
  destruct (String.eqb_spec k0 k) as [->|Hk]; simpl.
  - destruct (String.eqb_spec k k'); [congruence | exact IH].
  - now rewrite IH.
Qed.

(** ** Locating a segment in one playlist *)

Lemma getChunkIndex_from_range (segs : list Segment) (url : string) :
  forall base,
    getChunkIndex_from segs base url = -1
    \/ base <= getChunkIndex_from segs base url
       < base + Z.of_nat (length segs).
Proof.
  induction segs as [|s rest IH]; intros base; simpl; [now left|].
  destruct (endsWith url (uri s)); [right; lia|].
  destruct (IH (base + 1)) as [H|H]; [now left | right; lia].
Qed.

Lemma getChunkIndex_from_none (segs : list Segment) (url : string) :
  forall base, 0 <= base ->
    (getChunkIndex_from segs base url = -1
     <-> forall s, In s segs -> endsWith url (uri s) = false).
Proof.
  induction segs as [|s rest IH]; intros base Hb; simpl.
  - split; [intros _ s [] | reflexivity].
  - destruct (endsWith url (uri s)) eqn:E.
    + split; [lia|]. intros H. specialize (H s (or_introl eq_refl)).
      congruence.
    + rewrite IH by lia. split.
      * intros H s' [<-|Hin]; [exact E | now apply H].
      * intros H s' Hin. apply H. now right.
Qed.

Lemma getChunkIndex_from_found (segs : list Segment) (url : string) :
  forall base i, 0 <= base ->
    (getChunkIndex_from segs base url = base + Z.of_nat i
     <-> (exists s, nth_error segs i = Some s /\ endsWith url (uri s) = true)
         /\ (forall j s', (j < i)%nat -> nth_error segs j = Some s' ->
                          endsWith url (uri s') = false)).
Proof.
  induction segs as [|s rest IH]; intros base i Hb.
  - simpl. split; [lia|]. intros [[s [H _]] _]. destruct i; discriminate.
  - cbn [getChunkIndex_from]. destruct (endsWith url (uri s)) eqn:E.
    + split.
      * intros H. assert (i = 0%nat) as -> by lia. split.
        -- exists s. now split.
        -- intros j s' Hj. lia.
      * intros [_ H]. destruct i as [|i]; [lia|].
        specialize (H 0%nat s (Nat.lt_0_succ i) eq_refl). congruence.
    + destruct i as [|i].
      * split.
        -- intros H. destruct (getChunkIndex_from_range rest url (base + 1));
             lia.
        -- intros [[s' [H1 H2]] _]. simpl in H1. congruence.
      * replace (base + Z.of_nat (S i)) with (base + 1 + Z.of_nat i) by lia.
        rewrite IH by lia. split.
        -- intros [Hex Hlow]. split; [exact Hex|].
           intros [|j] s' Hj Hn; simpl in Hn.
           ++ congruence.
           ++ apply (Hlow j); [lia | exact Hn].
        -- intros [Hex Hlow]. split; [exact Hex|].
           intros j s' Hj Hn. apply (Hlow (S j)); [lia | exact Hn].
Qed.

(** C8: [getChunkIndex] returns the lowest index whose segment URI is a
    suffix of the candidate url, and [-1] exactly when no segment's URI is a
    suffix of it; it returns nothing else. *)
Theorem getChunkIndex_lowest_suffix (p : Playlist) (url : string) :
  let segs := segments (manifest p) in
  (forall i : nat,
      getChunkIndex p url = Z.of_nat i
      <-> (exists s, nth_error segs i = Some s /\ is_suffix (uri s) url)
          /\ (forall j s', (j < i)%nat -> nth_error segs j = Some s' ->
                           ~ is_suffix (uri s') url))
  /\ (getChunkIndex p url = -1
      <-> forall s, In s segs -> ~ is_suffix (uri s) url)
  /\ (getChunkIndex p url = -1
      \/ 0 <= getChunkIndex p url < Z.of_nat (length segs)).
Proof.
  intros segs. unfold getChunkIndex. fold segs. split; [|split].
  - intros i. rewrite (getChunkIndex_from_found segs url 0 i) by lia. split.
    + intros [[s [Hn He]] Hlow]. split.
      * exists s. split; [exact Hn | now apply endsWith_spec].
      * intros j s' Hj Hn' Hs. apply endsWith_spec in Hs.
        rewrite (Hlow j s' Hj Hn') in Hs. discriminate.
    + intros [[s [Hn Hs]] Hlow]. split.
      * exists s. split; [exact Hn | now apply endsWith_spec].
      * intros j s' Hj Hn'. apply endsWith_false. now apply (Hlow j).
  - rewrite (getChunkIndex_from_none segs url 0) by lia. split.
    + intros H s Hin Hs. apply endsWith_spec in Hs.
      rewrite (H s Hin) in Hs. discriminate.
    + intros H s Hin. apply endsWith_false. now apply H.
  - apply (getChunkIndex_from_range segs url 0).
Qed.

(** ** Constructing a playlist *)

Lemma new_Playlist_separator (url : string) (m : Manifest) :
  has_separator url ->
  exists pre rest,
    url = pre ++ String "/"%char rest
    /\ ~ occurs "/"%char rest
    /\ new_Playlist url m
       = Ok {| playlist_url := url;
               baseUrl := pre ++ String "/"%char "";
               manifest := m |}.
Proof using Type.
  intros Hsep. destruct (occurs_last_split _ _ Hsep) as (pre & rest & E & Hr).
  exists pre, rest. split; [exact E|]. split; [exact Hr|].
  unfold new_Playlist. subst url.
  rewrite (lastIndexOf_split _ pre rest Hr).
  destruct (Z.eqb_spec (Z.of_nat (String.length pre)) (-1)) as [Hneg|_];
    [lia|].
  now rewrite js_substring_through.
Qed.

Lemma new_Playlist_no_separator (url : string) (m : Manifest) :
  ~ has_separator url ->
  new_Playlist url m = Throw (ThrownString "Unexpected playlist URL format").
Proof using Type.
  intros Hno. unfold new_Playlist.
  apply lastIndexOf_absent in Hno. now rewrite Hno.
Qed.

(** C9: with a url that contains "/", the constructor succeeds for every
    manifest and [baseUrl] is the prefix of the url up to and including its
    last "/", and [processHlsPlaylist] stores that playlist whenever the
    parser delivers a manifest; with a url that contains no "/", the
    constructor throws, [processHlsPlaylist] throws for every content, and
    the registry is what it was. *)
Theorem playlist_baseUrl_or_throw
  (st : ChunkManager) (url content : string) (m : Manifest) :
  (has_separator url ->
   exists p pre rest,
     new_Playlist url m = Ok p
     /\ url = pre ++ String "/"%char rest
     /\ ~ occurs "/"%char rest
     /\ baseUrl p = pre ++ String "/"%char ""
     /\ playlist_url p = url
     /\ manifest p = m
     /\ (parse content = Ok m ->
         processHlsPlaylist st url content
         = (set_playlists st (Map_set url p (playlists st)), Ok p)))
  /\ (~ has_separator url ->
      new_Playlist url m
      = Throw (ThrownString "Unexpected playlist URL format")
      /\ exists e, processHlsPlaylist st url content = (st, Throw e)).
Proof using Type.
  split.
  - intros Hsep.
    destruct (new_Playlist_separator url m Hsep) as (pre & rest & E & Hr & Hp).
    eexists _, pre, rest. split; [exact Hp|].
    repeat split; try assumption; try reflexivity.
    intros Hparse. unfold processHlsPlaylist. now rewrite Hparse, Hp.
  - intros Hno. split; [now apply new_Playlist_no_separator|].
    unfold processHlsPlaylist. destruct (parse content) as [m'|e].
    + rewrite (new_Playlist_no_separator url m' Hno). eexists. reflexivity.
    + exists e. reflexivity.
Qed.

(** ** Dispatch of transport events to the session *)

Lemma step_transport_empty (st : ChunkManager) (op : Op) :
  is_transport op = true -> chunk st = None -> step st op = (st, []).
Proof.
  intros Ht Hc. destruct op; try discriminate; simpl.
  - unfold onFileLoaded. now rewrite Hc.
  - unfold onFileError. now rewrite Hc.
Qed.

Lemma run_transport_empty (evs : list Op) :
  forall st,
    Forall (fun op => is_transport op = true) evs ->
    chunk st = None -> run st evs = (st, []).
Proof.
  induction evs as [|op rest IH]; intros st Hall Hc; [reflexivity|].
  inversion Hall as [|? ? Hop Hrest]; subst.
  cbn [run]. rewrite (step_transport_empty st op Hop Hc).
  now rewrite (IH st Hrest Hc).
Qed.

Lemma invocations_app (a b : list Effect) :
  invocations (a ++ b) = (invocations a ++ invocations b)%list.
Proof. unfold invocations. apply flat_map_app. Qed.

(** A handler whose session matches: the callback is called, and the slot
    is emptied when the call returns and kept when it throws. *)
Lemma onFileLoaded_match (st : ChunkManager) (file : LoaderFile) (c : Chunk) :
  chunk st = Some c -> chunk_url c = file_url file ->
  onFileLoaded st file
  = match outcome (onSuccess c) (ArgData (file_data file)) with
    | Returns =>
        (set_chunk st None, [Invoke (onSuccess c) (ArgData (file_data file))])
    | Throws e =>
        (st, [Invoke (onSuccess c) (ArgData (file_data file)); Escapes e])
    end.
Proof.
  intros Hc Hu. unfold onFileLoaded, call_if_truthy.
  rewrite Hc, Hu, String.eqb_refl. cbn [fn_truthy].
  destruct (outcome (onSuccess c) (ArgData (file_data file))); reflexivity.
Qed.

Lemma onFileError_match
  (st : ChunkManager) (url : string) (error : Exn) (c : Chunk) :
  chunk st = Some c -> chunk_url c = url ->
  onFileError st url error
  = match outcome (onError c) (ArgError error) with
    | Returns => (set_chunk st None, [Invoke (onError c) (ArgError error)])
    | Throws e => (st, [Invoke (onError c) (ArgError error); Escapes e])
    end.
Proof.
  intros Hc Hu. unfold onFileError, call_if_truthy.
  rewrite Hc, Hu, String.eqb_refl. cbn [fn_truthy].
  destruct (outcome (onError c) (ArgError error)); reflexivity.
Qed.

Lemma onFileLoaded_other (st : ChunkManager) (file : LoaderFile) :
  ~ session_matches st (file_url file) -> onFileLoaded st file = (st, []).
Proof.
  intros Hno. unfold onFileLoaded. destruct (chunk st) as [c|] eqn:Hc;
    [|reflexivity].
  destruct (String.eqb_spec (chunk_url c) (file_url file)) as [E|_];
    [|reflexivity].
  exfalso. apply Hno. exists c. now split.
Qed.

Lemma onFileError_other (st : ChunkManager) (url : string) (error : Exn) :
  ~ session_matches st url -> onFileError st url error = (st, []).
Proof.
  intros Hno. unfold onFileError. destruct (chunk st) as [c|] eqn:Hc;
    [|reflexivity].
  destruct (String.eqb_spec (chunk_url c) url) as [E|_]; [|reflexivity].
  exfalso. apply Hno. exists c. now split.
Qed.

(** What a transport event does: nothing, or one call of a callback of
    the pending session, whose url is the event's; the slot is emptied when
    the call returns and kept when it throws. *)
Lemma step_transport_fired (st : ChunkManager) (op : Op) :
  is_transport op = true ->
  (step st op = (st, []) /\ ~ (exists c, chunk st = Some c
                                         /\ event_url op = Some (chunk_url c)))
  \/ exists c f a,
       chunk st = Some c
       /\ event_url op = Some (chunk_url c)
       /\ (f = onSuccess c \/ f = onError c)
       /\ ((outcome f a = Returns
            /\ step st op = (set_chunk st None, [Invoke f a]))
           \/ exists e, outcome f a = Throws e
                        /\ step st op = (st, [Invoke f a; Escapes e])).
Proof.
  intros Ht. destruct op; try discriminate; cbn [step event_url].
  - destruct (chunk st) as [c|] eqn:Hc.
    + destruct (String.eqb_spec (chunk_url c) (file_url file)) as [E|E].
      * right. exists c, (onSuccess c), (ArgData (file_data file)).
        split; [reflexivity|]. split; [now rewrite E|].
        split; [now left|]. rewrite (onFileLoaded_match st file c Hc E).
        destruct (outcome (onSuccess c) (ArgData (file_data file))) as [|e];
          [left; now split | right; exists e; now split].
      * left. split.
        -- apply onFileLoaded_other. intros (c' & Hc' & Hu).
           rewrite Hc in Hc'. inversion Hc'; subst c'. contradiction.
        -- intros (c' & Hc' & Hu). inversion Hc'; subst c'. congruence.
    + left. split.
      * unfold onFileLoaded. now rewrite Hc.
      * intros (c' & Hc' & _). discriminate.
  - destruct (chunk st) as [c|] eqn:Hc.
    + destruct (String.eqb_spec (chunk_url c) url) as [E|E].
      * right. exists c, (onError c), (ArgError error).
        split; [reflexivity|]. split; [now rewrite E|].
        split; [now right|]. rewrite (onFileError_match st url error c Hc E).
        destruct (outcome (onError c) (ArgError error)) as [|e];
          [left; now split | right; exists e; now split].
      * left. split.
        -- apply onFileError_other. intros (c' & Hc' & Hu).
           rewrite Hc in Hc'. inversion Hc'; subst c'. contradiction.
        -- intros (c' & Hc' & Hu). inversion Hc'; subst c'. congruence.
    + left. split.
      * unfold onFileError. now rewrite Hc.
      * intros (c' & Hc' & _). discriminate.
Qed.

(** A transport event leaves the manager as it is or empties the slot, and
    calls the loader never. *)
Lemma step_transport_cases (st : ChunkManager) (op : Op) :
  is_transport op = true ->
  exists out,
    loader_calls out = []
    /\ (step st op = (st, out) \/ step st op = (set_chunk st None, out)).
Proof.
  intros Ht.
  destruct (step_transport_fired st op Ht)
    as [[E _]|(c & f & a & _ & _ & _ & [[_ E]|(e & _ & E)])]; rewrite E;
    eexists; (split; [|eauto]); reflexivity.
Qed.

(** The calls a handler makes do not depend on how they end. *)
Lemma invocations_onFileLoaded (st : ChunkManager) (file : LoaderFile) :
  invocations (snd (onFileLoaded st file))
  = match chunk st with
    | Some c =>
        if String.eqb (chunk_url c) (file_url file)
        then [(onSuccess c, ArgData (file_data file))] else []
    | None => []
    end.
Proof.
  unfold onFileLoaded, call_if_truthy. destruct (chunk st) as [c|];
    [|reflexivity].
  destruct (String.eqb (chunk_url c) (file_url file)); [|reflexivity].
  cbn [fn_truthy]. destruct (outcome _ _); reflexivity.
Qed.

Lemma invocations_onFileError
  (st : ChunkManager) (url : string) (error : Exn) :
  invocations (snd (onFileError st url error))
  = match chunk st with
    | Some c =>
        if String.eqb (chunk_url c) url
        then [(onError c, ArgError error)] else []
    | None => []
    end.
Proof.
  unfold onFileError, call_if_truthy. destruct (chunk st) as [c|];
    [|reflexivity].
  destruct (String.eqb (chunk_url c) url); [|reflexivity].
  cbn [fn_truthy]. destruct (outcome _ _); reflexivity.
Qed.

Lemma invocations_run_cons (st : ChunkManager) (op : Op) (ops : list Op) :
  invocations (snd (run st (op :: ops)))
  = (invocations (snd (step st op))
     ++ invocations (snd (run (fst (step st op)) ops)))%list.
Proof.
  cbn [run]. destruct (step st op) as [st1 out1]. cbn [fst snd].
  destruct (run st1 ops) as [st2 out2]. apply invocations_app.
Qed.

Lemma returned_app (a b : list (Callback * Arg)) :
  returned (a ++ b) = (returned a ++ returned b)%list.
Proof. unfold returned. apply filter_app. Qed.



(** ** The candidate files of [loadChunk] *)

Lemma js_index_nat {A : Type} (l : list A) (i : nat) :
  js_index l (Z.of_nat i) = nth_error l i.
Proof.
  unfold js_index. destruct (Z.ltb_spec (Z.of_nat i) 0); [lia|].
  now rewrite Nat2Z.id.
Qed.

Lemma skipn_nth_cons {A : Type} (l : list A) :
  forall i x, nth_error l i = Some x -> skipn i l = x :: skipn (S i) l.
Proof.
  induction l as [|a l IH]; intros [|i] x H; simpl in *; try discriminate.
  - now inversion H.
  - now apply IH.
Qed.

Lemma nth_error_in_range {A : Type} (l : list A) (i : nat) :
  (i < length l)%nat -> exists x, nth_error l i = Some x.
Proof.
  intros H. destruct (nth_error l i) as [x|] eqn:E; [now exists x|].
  apply nth_error_None in E. lia.
Qed.

Lemma pushFiles_spec (p : Playlist) :
  forall fuel i files,
    (i + fuel <= length (segments (manifest p)))%nat ->
    pushFiles fuel (Z.of_nat i) p files
    = Ok (files ++ map (segment_file p)
                     (firstn fuel (skipn i (segments (manifest p)))))%list.
Proof.
  induction fuel as [|fuel IH]; intros i files Hle.
  - simpl. now rewrite app_nil_r.
  - cbn [pushFiles]. rewrite js_index_nat.
    destruct (nth_error_in_range (segments (manifest p)) i) as [s Hs]; [lia|].
    rewrite Hs, (skipn_nth_cons _ _ _ Hs).
    replace (Z.of_nat i + 1) with (Z.of_nat (S i)) by lia.
    rewrite IH by lia. cbn [firstn map]. rewrite <- app_assoc. reflexivity.
Qed.

Lemma candidateFiles_located (p : Playlist) (i : Z) (url : string) :
  0 <= i < Z.of_nat (length (segments (manifest p))) ->
  candidateFiles (Some p, i) url
  = Ok (map (segment_file p) (skipn (Z.to_nat i) (segments (manifest p))))
  /\ skipn (Z.to_nat i) (segments (manifest p)) <> [].
Proof.
  intros Hi. unfold candidateFiles.
  rewrite <- (Z2Nat.id i) at 2 by lia.
  rewrite pushFiles_spec by lia. simpl. split.
  - f_equal. f_equal. apply firstn_all2. rewrite length_skipn. lia.
  - intros E. apply (f_equal (@length _)) in E. rewrite length_skipn in E.
    simpl in E. lia.
Qed.

Lemma getChunkIndex_range (p : Playlist) (url : string) :
  getChunkIndex p url = -1
  \/ 0 <= getChunkIndex p url < Z.of_nat (length (segments (manifest p))).
Proof. apply (getChunkIndex_from_range _ url 0). Qed.

Lemma getChunkLocation_in_spec (url : string) (ps : list Playlist) :
  match getChunkLocation_in ps url with
  | (Some P, i) =>
      exists before after,
        ps = (before ++ P :: after)%list
        /\ (forall Q, In Q before -> getChunkIndex Q url = -1)
        /\ getChunkIndex P url = i
        /\ 0 <= i
  | (None, i) =>
      i = -1 /\ forall Q, In Q ps -> getChunkIndex Q url = -1
  end.
Proof.
  induction ps as [|p ps IH]; cbn [getChunkLocation_in].
  - split; [reflexivity | intros Q []].
  - destruct (Z.geb_spec (getChunkIndex p url) 0) as [Hge|Hlt].
    + exists [], ps. repeat split; try reflexivity; [intros Q [] | lia].
    + assert (Hp : getChunkIndex p url = -1)
        by (destruct (getChunkIndex_range p url); lia).
      destruct (getChunkLocation_in ps url) as [[P|] i].
      * destruct IH as (before & after & -> & Hb & Hi & H0).
        exists (p :: before), after. repeat split; try assumption.
        intros Q [<-|HQ]; [exact Hp | now apply Hb].
      * destruct IH as [-> Hall]. split; [reflexivity|].
        intros Q [<-|HQ]; [exact Hp | now apply Hall].
Qed.

Lemma located_lookup (st : ChunkManager) (url : string) (P : Playlist) (i : Z) :
  located st url P i -> getChunkLocation st url = (Some P, i).
Proof.
  intros (before & after & E & Hb & Hi & H0). unfold getChunkLocation.
  rewrite E. clear E. induction before as [|q before IH];
    cbn [app getChunkLocation_in].
  - rewrite Hi. destruct (Z.geb_spec i 0); [reflexivity | lia].
  - rewrite (Hb q (or_introl eq_refl)). cbn. apply IH.
    intros Q HQ. apply Hb. now right.
Qed.

Lemma unlocated_lookup (st : ChunkManager) (url : string) :
  unlocated st url -> getChunkLocation st url = (None, -1).
Proof.
  unfold unlocated, getChunkLocation.
  induction (Map_values (playlists st)) as [|q ps IH]; intros H;
    cbn [getChunkLocation_in]; [reflexivity|].
  rewrite (H q (or_introl eq_refl)). cbn. apply IH.
  intros Q HQ. apply H. now right.
Qed.

Lemma lookup_cases (st : ChunkManager) (url : string) :
  (exists P i, located st url P i) \/ unlocated st url.
Proof.
  pose proof (getChunkLocation_in_spec url (Map_values (playlists st))) as H.
  destruct (getChunkLocation_in (Map_values (playlists st)) url) as [[P|] i].
  - left. exists P, i. exact H.
  - right. exact (proj2 H).
Qed.

Lemma loadChunk_located (st : ChunkManager) (url : string) (ok err : Callback)
  (P : Playlist) (i : Z) :
  located st url P i ->
  0 <= i < Z.of_nat (length (segments (manifest P)))
  /\ exists s,
      nth_error (segments (manifest P)) (Z.to_nat i) = Some s
      /\ targetUrl st url = Some (baseUrl P ++ uri s)
      /\ loadChunk st url ok err
         = Ok (set_chunk st (Some (new_Chunk (baseUrl P ++ uri s) ok err)),
               [LoaderLoad
                  (map (segment_file P)
                     (skipn (Z.to_nat i) (segments (manifest P))))
                  (playlist_url P)]).
Proof.
  intros Hloc. pose proof (located_lookup _ _ _ _ Hloc) as Hlk.
  destruct Hloc as (_ & _ & _ & _ & Hi & H0).
  assert (Hr : 0 <= i < Z.of_nat (length (segments (manifest P))))
    by (destruct (getChunkIndex_range P url); lia).
  split; [exact Hr|].
  destruct (nth_error_in_range (segments (manifest P)) (Z.to_nat i)) as [s Hs];
    [lia|].
  exists s. split; [exact Hs|].
  destruct (candidateFiles_located P i url Hr) as [Hc _].
  unfold targetUrl, loadChunk. rewrite Hlk, Hc.
  rewrite (skipn_nth_cons _ _ _ Hs). split; reflexivity.
Qed.

Lemma loadChunk_unlocated (st : ChunkManager) (url : string)
  (ok err : Callback) :
  unlocated st url ->
  targetUrl st url = Some url
  /\ loadChunk st url ok err
     = Ok (set_chunk st (Some (new_Chunk url ok err)),
           [LoaderLoad [new_LoaderFile url] url]).
Proof.
  intros Hun. unfold targetUrl, loadChunk.
  rewrite (unlocated_lookup _ _ Hun). split; reflexivity.
Qed.

(** Whatever the registry, [loadChunk] returns, installs a session keyed by
    the target url with the caller's callbacks, and calls only the loader. *)
Lemma loadChunk_returns (st : ChunkManager) (url : string) (ok err : Callback) :
  exists t files key,
    targetUrl st url = Some t
    /\ loadChunk st url ok err
       = Ok (set_chunk st (Some (new_Chunk t ok err)), [LoaderLoad files key]).
Proof.
  destruct (lookup_cases st url) as [(P & i & Hloc)|Hun].
  - destruct (loadChunk_located st url ok err P i Hloc)
      as (_ & s & _ & Ht & Hl).
    eauto.
  - destruct (loadChunk_unlocated st url ok err Hun) as [Ht Hl]. eauto.
Qed.

(** C5, as the code has it: when the registry lookup of the url ends at
    playlist [P] with index [i] ([P] is the first stored playlist, in
    insertion order, in which the url is located, and [i] the index there),
    the loader receives the files of segments [i] to the last of [P], in
    playlist order, each at [P.baseUrl + uri], under the key [P.url]; when
    the url is located in no stored playlist it receives the single file of
    the url itself under the key url; one of the two is the case, and
    [loadChunk] returns without throwing. *)
Theorem loadChunk_candidate_files
  (st : ChunkManager) (url : string) (ok err : Callback) :
  (forall P i, located st url P i ->
     0 <= i < Z.of_nat (length (segments (manifest P)))
     /\ exists s,
         nth_error (segments (manifest P)) (Z.to_nat i) = Some s
         /\ loadChunk st url ok err
            = Ok (set_chunk st (Some (new_Chunk (baseUrl P ++ uri s) ok err)),
                  [LoaderLoad
                     (map (fun s' => new_LoaderFile (baseUrl P ++ uri s'))
                        (skipn (Z.to_nat i) (segments (manifest P))))
                     (playlist_url P)]))
  /\ (unlocated st url ->
      loadChunk st url ok err
      = Ok (set_chunk st (Some (new_Chunk url ok err)),
            [LoaderLoad [new_LoaderFile url] url]))
  /\ ((exists P i, located st url P i) \/ unlocated st url)
  /\ (exists r, loadChunk st url ok err = Ok r).
Proof.
  split; [|split; [|split]].
  - intros P i Hloc.
    destruct (loadChunk_located st url ok err P i Hloc) as (Hr & s & Hs & _ & Hl).
    split; [exact Hr|]. exists s. split; [exact Hs | exact Hl].
  - intros Hun. exact (proj2 (loadChunk_unlocated st url ok err Hun)).
  - apply lookup_cases.
  - destruct (loadChunk_returns st url ok err) as (t & files & key & _ & Hl).
    eauto.
Qed.

(** ** Aborting and superseding a session *)

Lemma targetUrl_set_chunk (st : ChunkManager) (c : option Chunk) (url : string) :
  targetUrl (set_chunk st c) url = targetUrl st url.
Proof. reflexivity. Qed.

Lemma invocations_transport_empty (st : ChunkManager) (ev : Op) :
  is_transport ev = true -> chunk st = None ->
  invocations (snd (step st ev)) = [].
Proof. intros Ht Hc. now rewrite (step_transport_empty st ev Ht Hc). Qed.

(** C1, as the code has it: let [t] be the target url of
    [loadChunk(u, ok, err)].  When [t] is [u] itself, [abortChunk(u)] right
    after the load empties the slot and a later transport event, for the
    target or for any other url, calls no callback.  When [t] differs from
    [u], [abortChunk(u)] leaves the session in place, and a file-loaded
    event for [t] calls [ok], a file-error event for [t] calls [err]. *)
Theorem abort_after_load
  (st : ChunkManager) (u t : string) (ok err : Callback)
  (data : list Byte.byte) (error : Exn) :
  targetUrl st u = Some t ->
  let calls := [CallLoadChunk u ok err; CallAbortChunk u] in
  let loaded := FileLoaded {| file_url := t; file_data := data |} in
  (exists st1 out1,
      loadChunk st u ok err = Ok (st1, out1)
      /\ chunk st1 = Some (new_Chunk t ok err))
  /\ (t = u ->
      chunk (fst (run st calls)) = None
      /\ forall ev, is_transport ev = true ->
           invocations (snd (run st (calls ++ [ev]))) = [])
  /\ (t <> u ->
      chunk (fst (run st calls)) = Some (new_Chunk t ok err)
      /\ invocations (snd (run st (calls ++ [loaded]))) = [(ok, ArgData data)]
      /\ invocations (snd (run st (calls ++ [FileError t error])))
         = [(err, ArgError error)]).
Proof.
  intros Ht calls loaded.
  destruct (loadChunk_returns st u ok err) as (t' & files & key & Ht' & Hl).
  rewrite Ht in Ht'. inversion Ht'; subst t'. clear Ht'.
  split; [eexists _, _; split; [exact Hl | reflexivity]|].
  split.
  - intros ->.
    assert (Hab : abortChunk (set_chunk st (Some (new_Chunk u ok err))) u
                  = set_chunk st None).
    { unfold abortChunk. cbn [chunk set_chunk chunk_url].
      now rewrite String.eqb_refl. }
    split.
    + unfold calls. cbn [run step]. rewrite Hl, Hab. reflexivity.
    + intros ev Hev. unfold calls. cbn [app run step]. rewrite Hl, Hab.
      rewrite (step_transport_empty (set_chunk st None) ev Hev eq_refl).
      reflexivity.
  - intros Hne. apply String.eqb_neq in Hne.
    assert (Hab : abortChunk (set_chunk st (Some (new_Chunk t ok err))) u
                  = set_chunk st (Some (new_Chunk t ok err))).
    { unfold abortChunk. cbn [chunk set_chunk chunk_url]. now rewrite Hne. }
    assert (Hstep : step st (CallLoadChunk u ok err)
                    = (set_chunk st (Some (new_Chunk t ok err)),
                       [LoaderLoad files key]))
      by (cbn [step]; now rewrite Hl).
    split; [|split]; unfold calls, loaded; cbn [app].
    + cbn [run step]. rewrite Hl, Hab. reflexivity.
    + rewrite !invocations_run_cons, Hstep. cbn [fst snd step].
      rewrite Hab, invocations_onFileLoaded.
      cbn [chunk set_chunk chunk_url file_url file_data onSuccess].
      now rewrite String.eqb_refl.
    + rewrite !invocations_run_cons, Hstep. cbn [fst snd step].
      rewrite Hab, invocations_onFileError.
      cbn [chunk set_chunk chunk_url onError].
      now rewrite String.eqb_refl.
Qed.

(** The effects of two loads followed by transport events. *)
Lemma run_two_loads
  (st : ChunkManager) (u1 u2 t1 t2 : string) (ok1 err1 ok2 err2 : Callback) :
  targetUrl st u1 = Some t1 ->
  targetUrl st u2 = Some t2 ->
  forall evs,
    invocations
      (snd (run st ([CallLoadChunk u1 ok1 err1; CallLoadChunk u2 ok2 err2]
                    ++ evs)))
    = invocations
        (snd (run (set_chunk st (Some (new_Chunk t2 ok2 err2))) evs)).
Proof.
  intros Ht1 Ht2 evs.
  destruct (loadChunk_returns st u1 ok1 err1) as (t & f1 & k1 & Ht & Hl1).
  rewrite Ht1 in Ht. inversion Ht; subst t. clear Ht.
  set (st1 := set_chunk st (Some (new_Chunk t1 ok1 err1))) in *.
  destruct (loadChunk_returns st1 u2 ok2 err2) as (t & f2 & k2 & Ht & Hl2).
  unfold st1 in Ht. rewrite targetUrl_set_chunk, Ht2 in Ht.
  inversion Ht; subst t. clear Ht.
  cbn [app run step]. rewrite Hl1. fold st1. rewrite Hl2.
  unfold st1. cbn [set_chunk playlists chunk].
  destruct (run _ evs). reflexivity.
Qed.

Lemma invoked_invocations (f : Callback) (out : list Effect) :
  invoked f out
  = existsb (fun ga : Callback * Arg => Nat.eqb (fst ga) f) (invocations out).
Proof.
  unfold invoked, invocations.
  induction out as [|[g a|files key|e] out IH]; cbn;
    [reflexivity| |exact IH|exact IH].
  now rewrite IH.
Qed.

(** C2, as the code has it: after [loadChunk(u1, ok1, err1)] and then
    [loadChunk(u2, ok2, err2)], a transport event for u2's target calls
    [ok2] with the data (file-loaded) or [err2] with the error (file-error)
    and nothing else.  A transport event for u1's target calls nothing when
    the two targets differ; when they coincide it is an event for u2's
    target, so a function (in particular [ok1] or [err1]) is called only if
    it is the [ok2], respectively [err2], given to the second call. *)
Theorem superseded_session
  (st : ChunkManager) (u1 u2 t1 t2 : string) (ok1 err1 ok2 err2 : Callback)
  (data : list Byte.byte) (error : Exn) :
  targetUrl st u1 = Some t1 ->
  targetUrl st u2 = Some t2 ->
  let loads := [CallLoadChunk u1 ok1 err1; CallLoadChunk u2 ok2 err2] in
  let loaded t := FileLoaded {| file_url := t; file_data := data |} in
  let out ev := snd (run st (loads ++ [ev])) in
  invocations (out (loaded t2)) = [(ok2, ArgData data)]
  /\ invocations (out (FileError t2 error)) = [(err2, ArgError error)]
  /\ (t1 <> t2 ->
      invocations (out (loaded t1)) = []
      /\ invocations (out (FileError t1 error)) = []
      /\ invocations (snd (run st (loads ++ [loaded t1; loaded t2])))
         = [(ok2, ArgData data)])
  /\ (forall f,
        (invoked f (out (loaded t1)) = true <-> t1 = t2 /\ f = ok2)
        /\ (invoked f (out (FileError t1 error)) = true
            <-> t1 = t2 /\ f = err2)).
Proof.
  intros Ht1 Ht2 loads loaded out.
  pose proof (run_two_loads st u1 u2 t1 t2 ok1 err1 ok2 err2 Ht1 Ht2) as Hrun.
  fold loads in Hrun.
  assert (Hloaded : forall t,
             invocations (out (loaded t))
             = if String.eqb t2 t then [(ok2, ArgData data)] else []).
  { intros t. unfold out, loaded. rewrite Hrun, invocations_run_cons.
    cbn [step run snd]. rewrite invocations_onFileLoaded.
    cbn [chunk set_chunk chunk_url file_url file_data onSuccess].
    destruct (String.eqb t2 t); reflexivity. }
  assert (Hfailed : forall t,
             invocations (out (FileError t error))
             = if String.eqb t2 t then [(err2, ArgError error)] else []).
  { intros t. unfold out. rewrite Hrun, invocations_run_cons.
    cbn [step run snd]. rewrite invocations_onFileError.
    cbn [chunk set_chunk chunk_url onError].
    destruct (String.eqb t2 t); reflexivity. }
  split; [|split; [|split]].
  - now rewrite Hloaded, String.eqb_refl.
  - now rewrite Hfailed, String.eqb_refl.
  - intros Hne. apply String.eqb_neq in Hne. rewrite String.eqb_sym in Hne.
    rewrite Hloaded, Hfailed, Hne. repeat split.
    rewrite Hrun, invocations_run_cons. unfold loaded. cbn [step].
    assert (Hskip : onFileLoaded (set_chunk st (Some (new_Chunk t2 ok2 err2)))
                      {| file_url := t1; file_data := data |}
                    = (set_chunk st (Some (new_Chunk t2 ok2 err2)), [])).
    { unfold onFileLoaded. cbn [chunk set_chunk chunk_url file_url].
      now rewrite Hne. }
    rewrite Hskip. cbn [fst snd].
    rewrite invocations_run_cons. cbn [step run snd].
    rewrite invocations_onFileLoaded.
    cbn [chunk set_chunk chunk_url file_url file_data onSuccess].
    now rewrite String.eqb_refl.
  - intros f. rewrite !invoked_invocations, Hloaded, Hfailed.
    destruct (String.eqb_spec t2 t1) as [E|E]; cbn.
    + rewrite !orb_false_r, !Nat.eqb_eq. subst t2.
      split; split; intros H; try (split; [reflexivity|]);
        try (now symmetry); symmetry; tauto.
    + split; split; intros H; try discriminate;
        destruct H as [H _]; congruence.
Qed.

(** ** The truncated document *)

Lemma unlines_app (a b : list string) :
  unlines (a ++ b) = unlines a ++ unlines b.
Proof.
  induction a as [|l a IH]; cbn [app unlines]; [reflexivity|].
  now rewrite IH, !append_assoc.
Qed.

Lemma appendSegments_spec (segs : list Segment) :
  forall fuel i content,
    (i + fuel <= length segs)%nat ->
    appendSegments fuel (Z.of_nat i) segs content
    = Ok (content
          ++ unlines (flat_map segment_pair (firstn fuel (skipn i segs)))).
Proof.
  induction fuel as [|fuel IH]; intros i content Hle.
  - cbn [appendSegments firstn flat_map unlines]. now rewrite append_nil_r.
  - cbn [appendSegments]. rewrite js_index_nat.
    destruct (nth_error_in_range segs i) as [s Hs]; [lia|].
    rewrite Hs, (skipn_nth_cons _ _ _ Hs).
    replace (Z.of_nat i + 1) with (Z.of_nat (S i)) by lia.
    rewrite IH by lia.
    cbn [firstn flat_map segment_pair app unlines].
    unfold extinf_line, tag_line. now rewrite !append_assoc.
Qed.

(** The header built by the four conditionals of [getLimitedContent]. *)
Lemma header_content (m : Manifest) :
  (let content := "#EXTM3U" ++ nl ++ "#EXT-X-VERSION:3" ++ nl in
   let content :=
     if truthy_string (playlistType m) then
       content ++ ("#EXT-X-PLAYLIST-TYPE:"
                   ++ text_of_string (playlistType m) ++ nl)
     else content in
   let content :=
     if truthy_number (targetDuration m) then
       content ++ ("#EXT-X-TARGETDURATION:"
                   ++ text_of_number (targetDuration m) ++ nl)
     else content in
   let content :=
     if truthy_number (mediaSequence m) then
       content ++ ("#EXT-X-MEDIA-SEQUENCE:"
                   ++ text_of_number (mediaSequence m) ++ nl)
     else content in
   if truthy_number (discontinuitySequence m) then
     content ++ ("#EXT-X-DISCONTINUITY-SEQUENCE:"
                 ++ text_of_number (discontinuitySequence m) ++ nl)
   else content)
  = unlines (fixed_header ++ optional_tags m).
Proof.
  unfold optional_tags, fixed_header, tag_line.
  destruct (truthy_string (playlistType m)),
           (truthy_number (targetDuration m)),
           (truthy_number (mediaSequence m)),
           (truthy_number (discontinuitySequence m));
    cbn [app unlines]; rewrite ?append_assoc, ?append_nil_r; reflexivity.
Qed.

Lemma getLimitedContent_spec (p : Playlist) (limit : Z) :
  limitedContentAvail p = true ->
  let n := length (segments (manifest p)) in
  (Z.to_nat (Z.of_nat n - limit) <= n)%nat ->
  getLimitedContent p limit
  = Ok (document_of (manifest p)
          (firstn (Z.to_nat (Z.of_nat n - limit)) (segments (manifest p)))).
Proof.
  intros Hav n Hle. unfold getLimitedContent. rewrite Hav. cbn [negb].
  cbv zeta. rewrite header_content.
  change 0 with (Z.of_nat 0). rewrite appendSegments_spec by (fold n; lia).
  unfold document_of. fold n. cbn [skipn].
  now rewrite <- unlines_app, <- app_assoc.
Qed.

Lemma limitedContentAvail_spec (p : Playlist) :
  limitedContentAvail p = true
  <-> endList (manifest p) = false
      /\ (1 <= length (segments (manifest p)))%nat.
Proof.
  unfold limitedContentAvail. rewrite andb_true_iff, negb_true_iff.
  split; intros [H1 H2]; (split; [exact H1|]).
  - destruct (Z.gtb_spec (Z.of_nat (length (segments (manifest p)))) 0);
      [lia | discriminate].
  - destruct (Z.gtb_spec (Z.of_nat (length (segments (manifest p)))) 0);
      [reflexivity | lia].
Qed.

Lemma prefix_empty (s : string) : prefix "" s = true.
Proof. destruct s; reflexivity. Qed.

Ltac tag_found := cbn; apply prefix_empty.

Ltac tag_cases m :=
  unfold optional_tags, tag_line;
  destruct (truthy_string (playlistType m)),
           (truthy_number (targetDuration m)),
           (truthy_number (mediaSequence m)),
           (truthy_number (discontinuitySequence m));
  cbn [app];
  (split;
  [ intros (l & Hin & Hp); try reflexivity;
    cbn [In] in Hin;
    repeat (destruct Hin as [<-|Hin]; [cbn in Hp; discriminate|]);
    contradiction
  | intros Ht; try discriminate;
    solve
      [ eexists; split; [left; reflexivity | tag_found]
      | eexists; split; [right; left; reflexivity | tag_found]
      | eexists; split; [right; right; left; reflexivity | tag_found]
      | eexists; split; [right; right; right; left; reflexivity
                        | tag_found] ] ]).

(** An optional tag is among the header lines exactly when its field is
    truthy. *)
Lemma optional_tags_iff (m : Manifest) :
  ((exists l, In l (optional_tags m)
              /\ prefix "#EXT-X-PLAYLIST-TYPE:" l = true)
   <-> truthy_string (playlistType m) = true)
  /\ ((exists l, In l (optional_tags m)
                 /\ prefix "#EXT-X-TARGETDURATION:" l = true)
      <-> truthy_number (targetDuration m) = true)
  /\ ((exists l, In l (optional_tags m)
                 /\ prefix "#EXT-X-MEDIA-SEQUENCE:" l = true)
      <-> truthy_number (mediaSequence m) = true)
  /\ ((exists l, In l (optional_tags m)
                 /\ prefix "#EXT-X-DISCONTINUITY-SEQUENCE:" l = true)
      <-> truthy_number (discontinuitySequence m) = true).
Proof.
  split; [|split; [|split]]; tag_cases m.
Qed.

(** No tag line of the document starts as the end-of-list tag does. *)
Lemma tag_lines_no_end_marker (m : Manifest) (kept : list Segment) :
  forall l, In l (tag_lines m kept) -> prefix end_marker l = false.
Proof.
  intros l Hin. unfold tag_lines in Hin.
  apply in_app_or in Hin. destruct Hin as [Hin|Hin].
  - cbn in Hin. destruct Hin as [<-|[<-|[]]]; reflexivity.
  - apply in_app_or in Hin. destruct Hin as [Hin|Hin].
    + unfold optional_tags, tag_line in Hin.
      destruct (truthy_string (playlistType m)),
               (truthy_number (targetDuration m)),
               (truthy_number (mediaSequence m)),
               (truthy_number (discontinuitySequence m));
        cbn [app In] in Hin;
        repeat (destruct Hin as [<-|Hin]; [reflexivity|]);
        contradiction.
    + apply in_map_iff in Hin. destruct Hin as (s & <- & _). reflexivity.
Qed.

(** C6: for a live manifest with [N >= 1] segments and [0 <= k <= N],
    [getLimitedContent(k)] returns the document made of the two fixed lines
    [#EXTM3U] and [#EXT-X-VERSION:3], then each of the four optional tags
    exactly when its field is truthy, then the EXTINF/URI pairs of the first
    [N - k] segments in their order (the last [k] are left out), and nothing
    after them; no tag line of it is the end-of-list tag. *)
Theorem getLimitedContent_truncated (p : Playlist) (k : Z) :
  endList (manifest p) = false ->
  (1 <= length (segments (manifest p)))%nat ->
  0 <= k <= Z.of_nat (length (segments (manifest p))) ->
  let m := manifest p in
  let n := length (segments m) in
  let kept := firstn (n - Z.to_nat k) (segments m) in
  getLimitedContent p k
  = Ok (unlines (fixed_header ++ optional_tags m
                 ++ flat_map segment_pair kept)%list)
  /\ length kept = (n - Z.to_nat k)%nat
  /\ (exists dropped,
        segments m = (kept ++ dropped)%list /\ length dropped = Z.to_nat k)
  /\ ((exists l, In l (optional_tags m)
                 /\ prefix "#EXT-X-PLAYLIST-TYPE:" l = true)
      <-> truthy_string (playlistType m) = true)
  /\ ((exists l, In l (optional_tags m)
                 /\ prefix "#EXT-X-TARGETDURATION:" l = true)
      <-> truthy_number (targetDuration m) = true)
  /\ ((exists l, In l (optional_tags m)
                 /\ prefix "#EXT-X-MEDIA-SEQUENCE:" l = true)
      <-> truthy_number (mediaSequence m) = true)
  /\ ((exists l, In l (optional_tags m)
                 /\ prefix "#EXT-X-DISCONTINUITY-SEQUENCE:" l = true)
      <-> truthy_number (discontinuitySequence m) = true)
  /\ (forall l, In l (tag_lines m kept) -> prefix end_marker l = false).
Proof.
  intros Hlive Hn Hk m n kept.
  assert (Hav : limitedContentAvail p = true)
    by (apply limitedContentAvail_spec; now split).
  assert (Hfuel : Z.to_nat (Z.of_nat n - k) = (n - Z.to_nat k)%nat)
    by (unfold n, m; lia).
  split.
  - rewrite (getLimitedContent_spec p k Hav) by (fold m; fold n; lia).
    fold m. fold n. rewrite Hfuel. reflexivity.
  - split; [unfold kept; rewrite length_firstn; lia|].
    split.
    + exists (skipn (n - Z.to_nat k) (segments m)). split.
      * unfold kept. now rewrite firstn_skipn.
      * rewrite length_skipn. fold n. unfold n, m in *. lia.
    + pose proof (optional_tags_iff m) as (H1 & H2 & H3 & H4).
      repeat (split; [assumption|]).
      apply tag_lines_no_end_marker.
Qed.

(** C10: for a live manifest with [N >= 1] segments and a limit [k >= N],
    [getLimitedContent(k)] does not throw and returns the two fixed lines
    and the applicable optional tags with no segment pair: the loop runs
    zero times and reads no segment. *)
Theorem getLimitedContent_limit_beyond (p : Playlist) (k : Z) :
  endList (manifest p) = false ->
  (1 <= length (segments (manifest p)))%nat ->
  Z.of_nat (length (segments (manifest p))) <= k ->
  Z.to_nat (Z.of_nat (length (segments (manifest p))) - k) = 0%nat
  /\ getLimitedContent p k
     = Ok (unlines (fixed_header ++ optional_tags (manifest p))%list).
Proof.
  intros Hlive Hn Hk.
  assert (Hav : limitedContentAvail p = true)
    by (apply limitedContentAvail_spec; now split).
  assert (Hfuel : Z.to_nat (Z.of_nat (length (segments (manifest p))) - k)
                  = 0%nat) by lia.
  split; [exact Hfuel|].
  rewrite (getLimitedContent_spec p k Hav) by lia.
  rewrite Hfuel. unfold document_of. cbn [firstn flat_map].
  now rewrite app_nil_r.
Qed.

(** ** Loading a playlist *)

Lemma half_limit_ok (p : Playlist) :
  limitedContentAvail p = true ->
  let n := length (segments (manifest p)) in
  Z.quot (Z.of_nat n) 2 = Z.of_nat n / 2
  /\ getLimitedContent p (Z.quot (Z.of_nat n) 2)
     = Ok (document_of (manifest p)
             (firstn (n - Z.to_nat (Z.of_nat n / 2)) (segments (manifest p)))).
Proof.
  intros Hav n.
  assert (Hq : Z.quot (Z.of_nat n) 2 = Z.of_nat n / 2)
    by (apply Z.quot_div_nonneg; lia).
  split; [exact Hq|]. rewrite Hq.
  assert (Hle : (Z.to_nat (Z.of_nat n - Z.of_nat n / 2) <= n)%nat).
  { pose proof (Z.div_pos (Z.of_nat n) 2). lia. }
  rewrite (getLimitedContent_spec p _ Hav) by exact Hle.
  fold n. f_equal. f_equal. f_equal.
  pose proof (Z.div_pos (Z.of_nat n) 2). lia.
Qed.

(** C7: when the fetched text parses (the parser delivers a manifest and
    the url has a separator), [loadHlsPlaylist(url)] stores the playlist
    under the url and returns [getLimitedContent(floor(N / 2))] of it, which
    is a document, when the manifest has no end marker and at least one
    segment, and the fetched text itself otherwise. *)
Theorem loadHlsPlaylist_success
  (st : ChunkManager) (url content : string) (m : Manifest) :
  fetchContent url = Ok content ->
  parse content = Ok m ->
  has_separator url ->
  exists p,
    new_Playlist url m = Ok p
    /\ manifest p = m
    /\ let st' := set_playlists st (Map_set url p (playlists st)) in
       let n := length (segments m) in
       Map_get url (playlists st') = Some p
       /\ (limitedContentAvail p = true
           <-> endList m = false /\ (1 <= n)%nat)
       /\ (limitedContentAvail p = true ->
           loadHlsPlaylist st url
           = (st', getLimitedContent p (Z.of_nat n / 2))
           /\ getLimitedContent p (Z.of_nat n / 2)
              = Ok (document_of m
                      (firstn (n - Z.to_nat (Z.of_nat n / 2)) (segments m))))
       /\ (limitedContentAvail p = false ->
           loadHlsPlaylist st url = (st', Ok content)).
Proof.
  intros Hfetch Hparse Hsep.
  destruct (new_Playlist_separator url m Hsep) as (pre & rest & _ & _ & Hp).
  eexists. split; [exact Hp|]. split; [reflexivity|].
  cbv zeta. split; [apply Map_get_set_same|].
  split; [apply limitedContentAvail_spec|].
  split.
  - intros Hav. destruct (half_limit_ok _ Hav) as [Hq Hdoc].
    cbn [manifest] in Hq, Hdoc. rewrite Hq in Hdoc. split; [|exact Hdoc].
    unfold loadHlsPlaylist, loadHlsPlaylist_try, processHlsPlaylist.
    rewrite Hfetch, Hparse, Hp, Hav. cbn [manifest]. rewrite Hq, Hdoc.
    reflexivity.
  - intros Hav.
    unfold loadHlsPlaylist, loadHlsPlaylist_try, processHlsPlaylist.
    now rewrite Hfetch, Hparse, Hp, Hav.
Qed.

Lemma new_Playlist_throw (url : string) (m : Manifest) (e : Exn) :
  new_Playlist url m = Throw e ->
  ~ has_separator url /\ e = ThrownString "Unexpected playlist URL format".
Proof using Type.
  intros H. destruct (occurs_dec "/"%char url) as [Hsep|Hno].
  - destruct (new_Playlist_separator url m Hsep) as (? & ? & _ & _ & Hp).
    congruence.
  - split; [exact Hno|].
    rewrite (new_Playlist_no_separator url m Hno) in H. congruence.
Qed.

(** The [try] block throws only at one of the three failing steps, and then
    the manager is still the one it started from. *)
Lemma loadHlsPlaylist_try_throw
  (st st1 : ChunkManager) (url : string) (e : Exn) :
  loadHlsPlaylist_try st url = (st1, Throw e) ->
  st1 = st /\ failing_step url e.
Proof.
  unfold loadHlsPlaylist_try, processHlsPlaylist, failing_step.
  destruct (fetchContent url) as [content|e0] eqn:Hfetch.
  - destruct (parse content) as [m|e1] eqn:Hparse.
    + destruct (new_Playlist url m) as [p|e2] eqn:Hp.
      * destruct (limitedContentAvail p) eqn:Hav; [|discriminate].
        destruct (half_limit_ok _ Hav) as [_ Hdoc]. rewrite Hdoc.
        discriminate.
      * intros H. inversion H; subst. split; [reflexivity|].
        destruct (new_Playlist_throw _ _ _ Hp) as [Hno ->].
        right. right. exists content, m. auto.
    + intros H. inversion H; subst. split; [reflexivity|].
      right. left. exists content. auto.
  - intros H. inversion H; subst. split; [reflexivity|]. now left.
Qed.

Lemma loadHlsPlaylist_try_failing
  (st : ChunkManager) (url : string) (e : Exn) :
  failing_step url e -> loadHlsPlaylist_try st url = (st, Throw e).
Proof.
  unfold loadHlsPlaylist_try, processHlsPlaylist.
  intros [Hf|[(content & Hf & Hp)|(content & m & Hf & Hp & Hno & ->)]].
  - now rewrite Hf.
  - now rewrite Hf, Hp.
  - now rewrite Hf, Hp, (new_Playlist_no_separator url m Hno).
Qed.

(** C4: [loadHlsPlaylist(u)] fails with [e] exactly when the fetch, the
    parser or the constructor (url without separator) throws [e]; after a
    failure the registry has no entry for [u], the entries of all other
    urls are what they were, and [e] is the error the failing step threw. *)
Theorem loadHlsPlaylist_failure
  (st : ChunkManager) (url : string) (e : Exn) :
  (forall st',
      loadHlsPlaylist st url = (st', Throw e) ->
      failing_step url e
      /\ Map_get url (playlists st') = None
      /\ (forall other, other <> url ->
            Map_get other (playlists st') = Map_get other (playlists st))
      /\ chunk st' = chunk st)
  /\ (failing_step url e ->
      loadHlsPlaylist st url
      = (set_playlists st (Map_delete url (playlists st)), Throw e)).
Proof.
  split.
  - intros st' H. unfold loadHlsPlaylist in H.
    destruct (loadHlsPlaylist_try st url) as [st1 [text|e0]] eqn:Htry;
      [discriminate|].
    inversion H; subst. clear H.
    destruct (loadHlsPlaylist_try_throw _ _ _ _ Htry) as [-> Hstep].
    split; [exact Hstep|]. cbn [playlists set_playlists chunk].
    split; [apply Map_get_delete_same|].
    split; [|reflexivity].
    intros other Hne. now apply Map_get_delete_other.
  - intros Hstep. unfold loadHlsPlaylist.
    now rewrite (loadHlsPlaylist_try_failing st url e Hstep).
Qed.

(** * Further properties of the code *)

(** ** How [getLimitedContent] fails *)

Lemma js_index_beyond {A : Type} (l : list A) (i : nat) :
  (length l <= i)%nat -> js_index l (Z.of_nat i) = None.
Proof. intros H. rewrite js_index_nat. now apply nth_error_None. Qed.

(** A loop that runs past the last segment reads [undefined]. *)
Lemma appendSegments_overrun (segs : list Segment) :
  forall fuel i content,
    (i <= length segs)%nat ->
    (length segs < i + fuel)%nat ->
    appendSegments fuel (Z.of_nat i) segs content = Throw TypeError.
Proof.
  induction fuel as [|fuel IH]; intros i content Hi Hover; [lia|].
  cbn [appendSegments].
  destruct (Nat.eq_dec i (length segs)) as [->|Hne].
  - now rewrite js_index_beyond.
  - rewrite js_index_nat.
    destruct (nth_error_in_range segs i) as [s Hs]; [lia|]. rewrite Hs.
    replace (Z.of_nat i + 1) with (Z.of_nat (S i)) by lia.
    apply IH; lia.
Qed.

Lemma getLimitedContent_unavailable (p : Playlist) (limit : Z) :
  limitedContentAvail p = false ->
  getLimitedContent p limit
  = Throw (ThrownString
             "Limited content allowed only for Live playlist with segments").
Proof. intros H. unfold getLimitedContent. now rewrite H. Qed.

Lemma getLimitedContent_negative (p : Playlist) (limit : Z) :
  limitedContentAvail p = true -> limit < 0 ->
  getLimitedContent p limit = Throw TypeError.
Proof.
  intros Hav Hneg. unfold getLimitedContent. rewrite Hav. cbn [negb].
  cbv zeta. change 0 with (Z.of_nat 0). apply appendSegments_overrun; lia.
Qed.

Lemma getLimitedContent_nonnegative (p : Playlist) (limit : Z) :
  limitedContentAvail p = true -> 0 <= limit ->
  exists text, getLimitedContent p limit = Ok text.
Proof.
  intros Hav Hpos. rewrite (getLimitedContent_spec p limit Hav) by lia. eauto.
Qed.

Lemma limitedContentAvail_false (p : Playlist) :
  limitedContentAvail p = false
  <-> endList (manifest p) = true \/ segments (manifest p) = [].
Proof.
  destruct (limitedContentAvail p) eqn:E.
  - apply limitedContentAvail_spec in E. destruct E as [He Hn]. split.
    + discriminate.
    + intros [H|H]; [congruence|]. rewrite H in Hn. simpl in Hn. lia.
  - split; [|reflexivity]. intros _.
    destruct (endList (manifest p)) eqn:He; [now left|]. right.
    destruct (segments (manifest p)) as [|s segs] eqn:Hs; [reflexivity|].
    assert (limitedContentAvail p = true).
    { apply limitedContentAvail_spec. rewrite Hs. split; [exact He|].
      simpl. lia. }
    congruence.
Qed.

(** X1: [getLimitedContent] throws its "Limited content allowed only for
    Live playlist with segments" error, whatever the limit, exactly when the
    manifest has the end marker or has no segment. *)
Theorem getLimitedContent_refuses_exactly (p : Playlist) (limit : Z) :
  getLimitedContent p limit
  = Throw (ThrownString
             "Limited content allowed only for Live playlist with segments")
  <-> endList (manifest p) = true \/ segments (manifest p) = [].
Proof.
  rewrite <- limitedContentAvail_false. split.
  - intros H. destruct (limitedContentAvail p) eqn:Hav; [|reflexivity].
    destruct (Z_lt_ge_dec limit 0) as [Hneg|Hpos].
    + rewrite (getLimitedContent_negative p limit Hav Hneg) in H.
      discriminate.
    + destruct (getLimitedContent_nonnegative p limit Hav) as [text Ht];
        [lia|]. congruence.
  - apply getLimitedContent_unavailable.
Qed.

(** X2: on a live manifest with segments, a negative limit makes the loop
    run past the last segment, and [getLimitedContent] ends in a TypeError
    instead of a document; a TypeError arises in no other way. *)
Theorem getLimitedContent_negative_limit (p : Playlist) (limit : Z) :
  getLimitedContent p limit = Throw TypeError
  <-> (endList (manifest p) = false
       /\ (1 <= length (segments (manifest p)))%nat
       /\ limit < 0).
Proof.
  rewrite <- and_assoc, <- limitedContentAvail_spec. split.
  - intros H. destruct (limitedContentAvail p) eqn:Hav.
    + split; [reflexivity|].
      destruct (Z_lt_ge_dec limit 0) as [Hneg|Hpos]; [exact Hneg|].
      destruct (getLimitedContent_nonnegative p limit Hav) as [text Ht];
        [lia|]. congruence.
    + rewrite (getLimitedContent_unavailable p limit Hav) in H. discriminate.
  - intros [Hav Hneg]. now apply getLimitedContent_negative.
Qed.

(** ** Whole runs of calls and events *)

Lemma run_app (a b : list Op) :
  forall st,
    run st (a ++ b)
    = let '(st1, out1) := run st a in
      let '(st2, out2) := run st1 b in
      (st2, (out1 ++ out2)%list).
Proof.
  induction a as [|op a IH]; intros st; cbn [app run].
  - destruct (run st b). reflexivity.
  - destruct (step st op) as [st1 out1]. rewrite IH.
    destruct (run st1 a) as [st2 out2]. destruct (run st2 b) as [st3 out3].
    now rewrite app_assoc.
Qed.

Lemma step_load (st : ChunkManager) (u : string) (ok err : Callback) :
  exists t files key,
    targetUrl st u = Some t
    /\ files <> []
    /\ step st (CallLoadChunk u ok err)
       = (set_chunk st (Some (new_Chunk t ok err)), [LoaderLoad files key]).
Proof.
  cbn [step]. unfold targetUrl, loadChunk.
  destruct (lookup_cases st u) as [(P & i & Hloc)|Hun].
  - pose proof (located_lookup _ _ _ _ Hloc) as Hlk.
    destruct (loadChunk_located st u ok err P i Hloc) as (Hr & s & Hs & _ & _).
    destruct (candidateFiles_located P i u Hr) as [Hc _].
    rewrite Hlk, Hc, (skipn_nth_cons _ _ _ Hs). cbn.
    eexists _, _, _. repeat split. discriminate.
  - rewrite (unlocated_lookup _ _ Hun). cbn.
    eexists _, _, _. repeat split. discriminate.
Qed.

Lemma step_abort (st : ChunkManager) (u : string) :
  step st (CallAbortChunk u) = (abortChunk st u, [])
  /\ (abortChunk st u = st \/ abortChunk st u = set_chunk st None).
Proof.
  split; [reflexivity|]. unfold abortChunk.
  destruct (chunk st) as [c|]; [|now left].
  destruct (String.eqb (chunk_url c) u); [now right | now left].
Qed.

Lemma run_keeps_playlists (ops : list Op) :
  forall st, playlists (fst (run st ops)) = playlists st.
Proof.
  induction ops as [|op ops IH]; intros st; [reflexivity|].
  cbn [run]. destruct (step st op) as [st1 out1] eqn:Hstep.
  specialize (IH st1). destruct (run st1 ops) as [st2 out2].
  cbn [fst] in *. rewrite IH. clear IH.
  destruct op as [u ok err|u|file|u error].
  - destruct (step_load st u ok err) as (t & files & key & _ & _ & E).
    rewrite E in Hstep. now inversion Hstep.
  - destruct (step_abort st u) as [E [H|H]]; rewrite E in Hstep;
      inversion Hstep; now rewrite H.
  - destruct (step_transport_cases st (FileLoaded file) eq_refl)
      as (out & _ & [E|E]); rewrite E in Hstep; now inversion Hstep.
  - destruct (step_transport_cases st (FileError u error) eq_refl)
      as (out & _ & [E|E]); rewrite E in Hstep; now inversion Hstep.
Qed.

(** X3: no sequence of [loadChunk] calls, [abortChunk] calls and transport
    events changes the playlist registry, so the lookup of a url gives the
    same target before and after it. *)
Theorem chunk_operations_keep_registry (st : ChunkManager) (ops : list Op) :
  playlists (fst (run st ops)) = playlists st
  /\ forall u, targetUrl (fst (run st ops)) u = targetUrl st u.
Proof.
  pose proof (run_keeps_playlists ops st) as H. split; [exact H|].
  intros u. unfold targetUrl, getChunkLocation. now rewrite H.
Qed.

Lemma loader_calls_app (a b : list Effect) :
  loader_calls (a ++ b) = (loader_calls a ++ loader_calls b)%list.
Proof. unfold loader_calls. apply flat_map_app. Qed.

Lemma returned_all (calls : list (Callback * Arg)) :
  (forall f a, outcome f a = Returns) -> returned calls = calls.
Proof.
  intros Hall. unfold returned. apply forallb_filter_id. apply forallb_forall.
  intros [f a] _. cbn [fst snd]. now rewrite Hall.
Qed.

(** X4: over any sequence of calls and events, at most one callback call
    returns per [loadChunk] call (plus one for a session pending at the
    start): a session is called again only after a call that threw.  Every
    function called is a callback given to a [loadChunk] of the sequence or
    one of the session pending at the start.  When callbacks always return,
    the bound holds for all the calls made. *)
Theorem callbacks_return_once_per_load (ops : list Op) :
  forall st,
    (length (returned (invocations (snd (run st ops))))
     <= count_loads ops + pending st)%nat
    /\ (forall f a,
          In (f, a) (invocations (snd (run st ops))) ->
          In f (registered_callbacks ops)
          \/ exists c, chunk st = Some c /\ (f = onSuccess c \/ f = onError c))
    /\ ((forall f a, outcome f a = Returns) ->
        (length (invocations (snd (run st ops)))
         <= count_loads ops + pending st)%nat).
Proof.
  assert (Hmain : forall st,
             (length (returned (invocations (snd (run st ops))))
              <= count_loads ops + pending st)%nat
             /\ (forall f a,
                   In (f, a) (invocations (snd (run st ops))) ->
                   In f (registered_callbacks ops)
                   \/ exists c, chunk st = Some c
                                /\ (f = onSuccess c \/ f = onError c))).
  { induction ops as [|op ops IH]; intros st.
    - cbn. split; [lia | intros f a []].
    - cbn [run]. destruct (step st op) as [st1 out1] eqn:Hstep.
      destruct (IH st1) as [Hlen Hin]. clear IH.
      destruct (run st1 ops) as [st2 out2]. cbn [snd] in *.
      rewrite invocations_app, returned_app, length_app.
      assert (Hevent :
                is_transport op = true ->
                (length (returned (invocations out1))
                 + length (returned (invocations out2))
                 <= count_loads (op :: ops) + pending st)%nat
                /\ forall f a,
                     In (f, a) (invocations out1 ++ invocations out2) ->
                     In f (registered_callbacks (op :: ops))
                     \/ exists c, chunk st = Some c
                                  /\ (f = onSuccess c \/ f = onError c)).
      { intros Ht.
        assert (Hcount : count_loads (op :: ops) = count_loads ops)
          by (destruct op; try discriminate; reflexivity).
        assert (Hreg : registered_callbacks (op :: ops)
                       = registered_callbacks ops)
          by (destruct op; try discriminate; reflexivity).
        rewrite Hcount, Hreg.
        destruct (step_transport_fired st op Ht)
          as [[E _]|(c & f0 & a0 & Hc & _ & Hf0 & [[Hret E]|(e & Hthr & E)])];
          rewrite E in Hstep; inversion Hstep; subst st1 out1; clear Hstep.
        - cbn. split; [lia|]. intros f a Hf. apply (Hin f a Hf).
        - unfold pending in *. rewrite Hc. cbn [chunk set_chunk] in Hlen.
          cbn [invocations flat_map app returned filter fst snd length].
          rewrite Hret. cbn [length]. split; [lia|].
          intros f a [Hf|Hf].
          + inversion Hf; subst f0 a0. right. eauto.
          + destruct (Hin f a Hf) as [H|(c' & Hc' & _)];
              [now left | discriminate].
        - cbn [invocations flat_map app returned filter fst snd length].
          rewrite Hthr. cbn [length]. split; [lia|].
          intros f a [Hf|Hf].
          + inversion Hf; subst f0 a0. right. eauto.
          + apply (Hin f a Hf). }
      destruct op as [u ok err|u|file|u error];
        [| |exact (Hevent eq_refl)|exact (Hevent eq_refl)]; clear Hevent.
      + destruct (step_load st u ok err) as (t & files & key & _ & _ & E).
        rewrite E in Hstep. inversion Hstep; subst st1 out1. clear Hstep.
        unfold count_loads in *.
        cbn [filter length invocations flat_map app returned].
        unfold pending in Hlen. cbn [chunk set_chunk] in Hlen.
        split; [lia|]. intros f a Hf. left.
        cbn [registered_callbacks flat_map]. apply in_or_app.
        destruct (Hin f a Hf) as [H|(c & Hc & H)]; [now right|].
        left. cbn [chunk set_chunk] in Hc. inversion Hc; subst c.
        cbn [onSuccess onError] in H. cbn [In].
        destruct H as [->| ->]; [now left | right; now left].
      + destruct (step_abort st u) as [E Hcases]. rewrite E in Hstep.
        inversion Hstep; subst st1 out1. clear Hstep.
        unfold count_loads in *.
        cbn [filter length invocations flat_map app returned].
        assert (Hp : (pending (abortChunk st u) <= pending st)%nat).
        { destruct Hcases as [->| ->]; [lia|]. unfold pending. cbn.
          destruct (chunk st); lia. }
        split; [lia|]. intros f a Hf.
        destruct (Hin f a Hf) as [H|(c & Hc & H)]; [now left|]. right.
        exists c. split; [|exact H].
        destruct Hcases as [E'|E']; rewrite E' in Hc;
          [exact Hc|discriminate]. }
  intros st. destruct (Hmain st) as [Hlen Hin].
  split; [exact Hlen|]. split; [exact Hin|].
  intros Hall. now rewrite <- (returned_all _ Hall).
Qed.

(** X5: over any sequence of calls and events, [loader.load] is called
    exactly once per [loadChunk] call, never by [abortChunk] or by an
    event, and always with at least one file. *)
Theorem one_loader_call_per_load (ops : list Op) :
  forall st,
    length (loader_calls (snd (run st ops))) = count_loads ops
    /\ Forall (fun call => fst call <> []) (loader_calls (snd (run st ops))).
Proof.
  induction ops as [|op ops IH]; intros st.
  - cbn. split; [reflexivity | constructor].
  - cbn [run]. destruct (step st op) as [st1 out1] eqn:Hstep.
    destruct (IH st1) as [Hlen Hall]. clear IH.
    destruct (run st1 ops) as [st2 out2]. cbn [snd] in *.
    rewrite loader_calls_app, length_app.
    unfold count_loads in *.
    destruct op as [u ok err|u|file|u error].
    + destruct (step_load st u ok err) as (t & files & key & _ & Hne & E).
      rewrite E in Hstep. inversion Hstep; subst st1 out1.
      cbn [filter length loader_calls flat_map app]. split; [lia|].
      constructor; [exact Hne | exact Hall].
    + destruct (step_abort st u) as [E _]. rewrite E in Hstep.
      inversion Hstep; subst st1 out1.
      cbn [filter length loader_calls flat_map app]. now split.
    + destruct (step_transport_cases st (FileLoaded file) eq_refl)
        as (out & Hlc & [E|E]); rewrite E in Hstep; inversion Hstep;
        subst st1 out1; rewrite Hlc; cbn [filter length app]; now split.
    + destruct (step_transport_cases st (FileError u error) eq_refl)
        as (out & Hlc & [E|E]); rewrite E in Hstep; inversion Hstep;
        subst st1 out1; rewrite Hlc; cbn [filter length app]; now split.
Qed.

(** Events for other urls pass a pending session by. *)
Lemma run_skipped (skipped : list Op) :
  forall st c,
    chunk st = Some c ->
    Forall (fun op => is_transport op = true
                      /\ event_url op <> Some (chunk_url c)) skipped ->
    run st skipped = (st, []).
Proof.
  induction skipped as [|op ops IH]; intros st c Hc Hall; [reflexivity|].
  inversion Hall as [|? ? [Ht Hu] Hrest]; subst.
  cbn [run].
  destruct (step_transport_fired st op Ht)
    as [[E _]|(c' & f & a & Hc' & Hu' & _)].
  - rewrite E, (IH st c Hc Hrest). reflexivity.
  - rewrite Hc in Hc'. inversion Hc'; subst c'. contradiction.
Qed.

(** X6: after a call [loadChunk(u, ok, err)], events for files other than
    the target are ignored and the first event for the target calls [ok]
    with the file's data (file-loaded) or [err] with the error
    (file-error).  When that call returns, the slot is empty and no later
    transport event calls anything: exactly one call is made.  When it
    throws, the session is still pending after the event. *)
Theorem loadChunk_completes_once
  (st : ChunkManager) (u t : string) (ok err : Callback)
  (skipped later : list Op) (data : list Byte.byte) (error : Exn) :
  targetUrl st u = Some t ->
  Forall (fun op => is_transport op = true /\ event_url op <> Some t)
    skipped ->
  Forall (fun op => is_transport op = true) later ->
  let upto ev := run st (CallLoadChunk u ok err :: skipped ++ [ev]) in
  let finished ev :=
    run st (CallLoadChunk u ok err :: skipped ++ ev :: later) in
  let loaded := FileLoaded {| file_url := t; file_data := data |} in
  let failed := FileError t error in
  invocations (snd (upto loaded)) = [(ok, ArgData data)]
  /\ invocations (snd (upto failed)) = [(err, ArgError error)]
  /\ (outcome ok (ArgData data) = Returns ->
      invocations (snd (finished loaded)) = [(ok, ArgData data)]
      /\ chunk (fst (finished loaded)) = None)
  /\ (outcome err (ArgError error) = Returns ->
      invocations (snd (finished failed)) = [(err, ArgError error)]
      /\ chunk (fst (finished failed)) = None)
  /\ (forall e, outcome ok (ArgData data) = Throws e ->
        chunk (fst (upto loaded)) = Some (new_Chunk t ok err))
  /\ (forall e, outcome err (ArgError error) = Throws e ->
        chunk (fst (upto failed)) = Some (new_Chunk t ok err)).
Proof.
  intros Ht Hskip Hlater upto finished loaded failed.
  destruct (step_load st u ok err) as (t' & files & key & Ht' & _ & Hstep).
  rewrite Ht in Ht'. inversion Ht'; subst t'. clear Ht'.
  set (st1 := set_chunk st (Some (new_Chunk t ok err))) in *.
  assert (Hrun : forall ev tail,
             run st (CallLoadChunk u ok err :: skipped ++ ev :: tail)
             = let '(st2, out2) := step st1 ev in
               let '(st3, out3) := run st2 tail in
               (st3, LoaderLoad files key :: (out2 ++ out3)%list)).
  { intros ev tail. cbn [run]. rewrite Hstep, run_app.
    rewrite (run_skipped skipped st1 (new_Chunk t ok err) eq_refl Hskip).
    cbn [run app]. destruct (step st1 ev) as [st2 out2].
    destruct (run st2 tail) as [st3 out3]. reflexivity. }
  assert (Hok : step st1 loaded
                = match outcome ok (ArgData data) with
                  | Returns => (set_chunk st None, [Invoke ok (ArgData data)])
                  | Throws e => (st1, [Invoke ok (ArgData data); Escapes e])
                  end).
  { unfold loaded. cbn [step].
    now rewrite (onFileLoaded_match st1
                   {| file_url := t; file_data := data |}
                   (new_Chunk t ok err) eq_refl eq_refl). }
  assert (Herr : step st1 failed
                 = match outcome err (ArgError error) with
                   | Returns =>
                       (set_chunk st None, [Invoke err (ArgError error)])
                   | Throws e =>
                       (st1, [Invoke err (ArgError error); Escapes e])
                   end).
  { unfold failed. cbn [step].
    now rewrite (onFileError_match st1 t error (new_Chunk t ok err)
                   eq_refl eq_refl). }
  unfold upto, finished. rewrite !Hrun, Hok, Herr.
  split; [destruct (outcome ok (ArgData data)); reflexivity|].
  split; [destruct (outcome err (ArgError error)); reflexivity|].
  split; [|split; [|split]].
  - intros ->.
    rewrite (run_transport_empty later (set_chunk st None) Hlater eq_refl).
    split; reflexivity.
  - intros ->.
    rewrite (run_transport_empty later (set_chunk st None) Hlater eq_refl).
    split; reflexivity.
  - intros e ->. reflexivity.
  - intros e ->. reflexivity.
Qed.

(** X7: after [abortChunk(u)] no session keyed by [u] is pending, so an
    event for [u] calls nothing; a session keyed by another url is left
    exactly as it was; and aborting twice is aborting once. *)
Theorem abortChunk_clears_its_key
  (st : ChunkManager) (u : string) (data : list Byte.byte) (error : Exn) :
  ~ session_matches (abortChunk st u) u
  /\ invocations
       (snd (run st [CallAbortChunk u;
                     FileLoaded {| file_url := u; file_data := data |}])) = []
  /\ invocations (snd (run st [CallAbortChunk u; FileError u error])) = []
  /\ (~ session_matches st u -> abortChunk st u = st)
  /\ abortChunk (abortChunk st u) u = abortChunk st u.
Proof.
  assert (Hno : ~ session_matches (abortChunk st u) u).
  { unfold abortChunk, session_matches.
    destruct (chunk st) as [c|] eqn:Hc.
    - destruct (String.eqb_spec (chunk_url c) u) as [E|E].
      + intros (c' & Hc' & _). discriminate.
      + rewrite Hc. intros (c' & Hc' & Hu). inversion Hc'; subst c'.
        contradiction.
    - rewrite Hc. intros (c' & Hc' & _). discriminate. }
  assert (Hquiet : forall ev,
             is_transport ev = true -> event_url ev = Some u ->
             step (abortChunk st u) ev = (abortChunk st u, [])).
  { intros ev Ht Hu.
    destruct (step_transport_fired (abortChunk st u) ev Ht)
      as [[E _]|(c & f & a & Hc & Hu' & _)]; [exact E|].
    exfalso. apply Hno. exists c. split; [exact Hc|]. congruence. }
  split; [exact Hno|]. split; [|split; [|split]].
  - cbn [run]. destruct (step_abort st u) as [-> _].
    rewrite (Hquiet (FileLoaded {| file_url := u; file_data := data |})
               eq_refl eq_refl).
    reflexivity.
  - cbn [run]. destruct (step_abort st u) as [-> _].
    rewrite (Hquiet (FileError u error) eq_refl eq_refl). reflexivity.
  - intros Hnm. unfold abortChunk. destruct (chunk st) as [c|] eqn:Hc;
      [|reflexivity].
    destruct (String.eqb_spec (chunk_url c) u) as [E|E]; [|reflexivity].
    exfalso. apply Hnm. exists c. now split.
  - unfold abortChunk at 1. destruct (chunk (abortChunk st u)) as [c|] eqn:Hc;
      [|reflexivity].
    destruct (String.eqb_spec (chunk_url c) u) as [E|E]; [|reflexivity].
    exfalso. apply Hno. exists c. now split.
Qed.

(** ** The target url and the segments of a playlist *)

Lemma getChunkIndex_hit (p : Playlist) (url : string) (i : Z) :
  getChunkIndex p url = i -> 0 <= i ->
  exists s,
    nth_error (segments (manifest p)) (Z.to_nat i) = Some s
    /\ is_suffix (uri s) url.
Proof.
  intros Hi H0. unfold getChunkIndex in Hi.
  rewrite <- (Z2Nat.id i H0) in Hi.
  apply (getChunkIndex_from_found _ url 0 (Z.to_nat i)) in Hi; [|lia].
  destruct Hi as [(s & Hs & He) _]. exists s. split; [exact Hs|].
  now apply endsWith_spec.
Qed.

(** X8: the target url of [loadChunk(u, ...)] always exists, and it is
    either [u] itself (when no stored playlist locates [u]) or
    [baseUrl + uri] of a segment of a stored playlist whose [uri] is a
    suffix of [u]: the request and its target end with the same uri. *)
Theorem targetUrl_ends_like_request (st : ChunkManager) (u : string) :
  exists t,
    targetUrl st u = Some t
    /\ ((t = u /\ unlocated st u)
        \/ exists key P s,
             In (key, P) (playlists st)
             /\ In s (segments (manifest P))
             /\ t = baseUrl P ++ uri s
             /\ is_suffix (uri s) u
             /\ is_suffix (uri s) t).
Proof.
  destruct (lookup_cases st u) as [(P & i & Hloc)|Hun].
  - destruct (loadChunk_located st u 0%nat 0%nat P i Hloc)
      as (Hr & s & Hs & Ht & _).
    exists (baseUrl P ++ uri s). split; [exact Ht|]. right.
    destruct Hloc as (before & after & Hvals & _ & Hi & H0).
    destruct (getChunkIndex_hit P u i Hi H0) as (s' & Hs' & Hsuf).
    rewrite Hs in Hs'. inversion Hs'; subst s'.
    assert (HP : In P (Map_values (playlists st))).
    { rewrite Hvals. apply in_or_app. right. now left. }
    apply in_map_iff in HP. destruct HP as ([key P'] & HP' & Hin).
    cbn in HP'. subst P'.
    exists key, P, s. split; [exact Hin|].
    split; [now apply (nth_error_In _ _ Hs)|].
    split; [reflexivity|]. split; [exact Hsuf|].
    exists (baseUrl P). reflexivity.
  - exists u. split; [exact (proj1 (loadChunk_unlocated st u 0%nat 0%nat Hun))|].
    left. now split.
Qed.

(** X9: the absolute url [baseUrl + uri] of the segment at index [i] is
    located by [getChunkIndex] in its own playlist at an index that is
    never past [i], and at [i] itself when no earlier segment's uri is a
    suffix of that url. *)
Theorem segment_url_locates_segment (p : Playlist) (i : nat) (s : Segment) :
  nth_error (segments (manifest p)) i = Some s ->
  let url := baseUrl p ++ uri s in
  0 <= getChunkIndex p url <= Z.of_nat i
  /\ ((forall j s', (j < i)%nat ->
         nth_error (segments (manifest p)) j = Some s' ->
         ~ is_suffix (uri s') url) ->
      getChunkIndex p url = Z.of_nat i).
Proof.
  intros Hs url.
  assert (Hend : endsWith url (uri s) = true)
    by (apply endsWith_spec; exists (baseUrl p); reflexivity).
  assert (Hfound : 0 <= getChunkIndex p url).
  { destruct (getChunkIndex_range p url) as [Hnone|Hr]; [|lia].
    unfold getChunkIndex in Hnone.
    pose proof (proj1 (getChunkIndex_from_none _ url 0 (Z.le_refl 0)) Hnone)
      as Hall.
    rewrite (Hall s (nth_error_In _ _ Hs)) in Hend. discriminate. }
  assert (Hle : getChunkIndex p url <= Z.of_nat i).
  { destruct (Z_le_gt_dec (getChunkIndex p url) (Z.of_nat i)) as [H|H];
      [exact H|].
    pose proof (eq_refl (getChunkIndex p url)) as Hi.
    unfold getChunkIndex in Hi at 2.
    rewrite <- (Z2Nat.id (getChunkIndex p url) Hfound) in Hi at 1.
    symmetry in Hi.
    destruct (proj1 (getChunkIndex_from_found _ url 0 _ (Z.le_refl 0)) Hi)
      as [_ Hlow].
    rewrite (Hlow i s) in Hend; [discriminate | lia | exact Hs]. }
  split; [lia|]. intros Hfree.
  unfold getChunkIndex.
  apply (proj2 (getChunkIndex_from_found _ url 0 i (Z.le_refl 0))). split.
  - exists s. now split.
  - intros j s' Hj Hs'. apply endsWith_false. now apply (Hfree j).
Qed.

(** ** The registry *)

Lemma Map_get_set_other {V : Type} k k' (v : V) m :
  k' <> k -> Map_get k' (Map_set k v m) = Map_get k' m.
Proof.
  intros Hne. induction m as [|[k0 v0] m IH]; simpl.
  - destruct (String.eqb_spec k k'); [congruence | reflexivity].
  - destruct (String.eqb_spec k0 k) as [->|Hk]; simpl.
    + destruct (String.eqb_spec k k'); [congruence | reflexivity].
    + now rewrite IH.
Qed.

Lemma Map_keys_set_present {V : Type} k (v : V) m :
  In k (Map_keys m) -> Map_keys (Map_set k v m) = Map_keys m.
Proof.
  unfold Map_keys. induction m as [|[k0 v0] m IH]; simpl; [intros []|].
  intros Hin. destruct (String.eqb_spec k0 k) as [->|Hk]; simpl;
    [reflexivity|].
  f_equal. apply IH. destruct Hin as [H|H]; [contradiction | exact H].
Qed.

Lemma Map_keys_set_absent {V : Type} k (v : V) m :
  ~ In k (Map_keys m) -> Map_keys (Map_set k v m) = (Map_keys m ++ [k])%list.
Proof.
  unfold Map_keys. induction m as [|[k0 v0] m IH]; simpl; [reflexivity|].
  intros Hno. destruct (String.eqb_spec k0 k) as [->|Hk]; simpl.
  - exfalso. apply Hno. now left.
  - f_equal. apply IH. intros H. apply Hno. now right.
Qed.

Lemma Map_set_twice {V : Type} k (v : V) m :
  Map_set k v (Map_set k v m) = Map_set k v m.
Proof.
  induction m as [|[k0 v0] m IH]; simpl.
  - now rewrite String.eqb_refl.
  - destruct (String.eqb_spec k0 k) as [->|Hk]; simpl.
    + now rewrite String.eqb_refl.
    + destruct (String.eqb_spec k0 k); [contradiction | now rewrite IH].
Qed.

Lemma Map_set_entries {V : Type} k (v : V) m :
  forall entry, In entry (Map_set k v m) -> entry = (k, v) \/ In entry m.
Proof.
  induction m as [|[k0 v0] m IH]; simpl; intros entry Hin.
  - destruct Hin as [<-|[]]. now left.
  - destruct (String.eqb k0 k); simpl in Hin.
    + destruct Hin as [<-|H]; [now left | right; now right].
    + destruct Hin as [<-|H]; [right; now left|].
      destruct (IH entry H) as [E|E]; [now left | right; now right].
Qed.

Lemma Map_delete_entries {V : Type} k (m : list (string * V)) :
  forall entry, In entry (Map_delete k m) -> In entry m.
Proof.
  induction m as [|[k0 v0] m IH]; simpl; intros entry Hin; [exact Hin|].
  destruct (String.eqb k0 k); simpl in Hin.
  - right. now apply IH.
  - destruct Hin as [<-|H]; [now left | right; now apply IH].
Qed.

Lemma Map_set_NoDup {V : Type} k (v : V) m :
  NoDup (Map_keys m) -> NoDup (Map_keys (Map_set k v m)).
Proof.
  intros Hnd. destruct (in_dec string_dec k (Map_keys m)) as [Hin|Hno].
  - now rewrite Map_keys_set_present.
  - rewrite Map_keys_set_absent by assumption.
    apply NoDup_app; [exact Hnd | repeat constructor; intros [] |].
    intros x Hx [<-|[]]. contradiction.
Qed.

Lemma Map_delete_NoDup {V : Type} k (m : list (string * V)) :
  NoDup (Map_keys m) -> NoDup (Map_keys (Map_delete k m)).
Proof.
  unfold Map_keys. induction m as [|[k0 v0] m IH]; simpl; intros Hnd;
    [constructor|].
  inversion Hnd as [|? ? Hno Hrest]; subst.
  destruct (String.eqb k0 k); simpl; [now apply IH|].
  constructor; [|now apply IH].
  intros Hin. apply Hno. apply in_map_iff in Hin.
  destruct Hin as (entry & Hk & Hin). apply in_map_iff.
  exists entry. split; [exact Hk | now apply (Map_delete_entries k m)].
Qed.

(** What a successful [processHlsPlaylist] leaves behind. *)
Lemma processHlsPlaylist_ok
  (st : ChunkManager) (url content : string) (m : Manifest) :
  parse content = Ok m -> has_separator url ->
  exists p,
    new_Playlist url m = Ok p
    /\ entry_ok (url, p)
    /\ manifest p = m
    /\ processHlsPlaylist st url content
       = (set_playlists st (Map_set url p (playlists st)), Ok p).
Proof.
  intros Hparse Hsep.
  destruct (new_Playlist_separator url m Hsep) as (pre & rest & E & Hr & Hp).
  eexists. split; [exact Hp|]. split; [|split; [reflexivity|]].
  - split; [reflexivity|]. exists pre, rest. cbn. now repeat split.
  - unfold processHlsPlaylist. now rewrite Hparse, Hp.
Qed.

(** What a successful [try] block of [loadHlsPlaylist] leaves behind. *)
Lemma loadHlsPlaylist_ok
  (st : ChunkManager) (url content : string) (m : Manifest) :
  fetchContent url = Ok content -> parse content = Ok m ->
  has_separator url ->
  exists p,
    new_Playlist url m = Ok p
    /\ entry_ok (url, p)
    /\ manifest p = m
    /\ loadHlsPlaylist st url
       = (set_playlists st (Map_set url p (playlists st)),
          if limitedContentAvail p
          then Ok (document_of m
                     (firstn (length (segments m)
                              - Z.to_nat (Z.of_nat (length (segments m)) / 2))
                        (segments m)))
          else Ok content).
Proof.
  intros Hfetch Hparse Hsep.
  destruct (processHlsPlaylist_ok st url content m Hparse Hsep)
    as (p & Hp & Hentry & Hm & Hproc).
  exists p. split; [exact Hp|]. split; [exact Hentry|]. split; [exact Hm|].
  unfold loadHlsPlaylist, loadHlsPlaylist_try. rewrite Hfetch, Hproc.
  destruct (limitedContentAvail p) eqn:Hav; [|reflexivity].
  destruct (half_limit_ok p Hav) as [_ Hdoc]. rewrite Hdoc, Hm. reflexivity.
Qed.

(** Whatever happens, [loadHlsPlaylist] only sets or deletes the entry of
    its url. *)
Lemma loadHlsPlaylist_state (st : ChunkManager) (url : string) :
  fst (loadHlsPlaylist st url)
  = set_playlists st (Map_delete url (playlists st))
  \/ exists p,
       entry_ok (url, p)
       /\ fst (loadHlsPlaylist st url)
          = set_playlists st (Map_set url p (playlists st)).
Proof.
  destruct (fetchContent url) as [content|e] eqn:Hfetch.
  - destruct (parse content) as [m|e] eqn:Hparse.
    + destruct (occurs_dec "/"%char url) as [Hsep|Hno].
      * destruct (loadHlsPlaylist_ok st url content m Hfetch Hparse Hsep)
          as (p & _ & Hentry & _ & Hload).
        right. exists p. split; [exact Hentry|]. now rewrite Hload.
      * left. unfold loadHlsPlaylist, loadHlsPlaylist_try, processHlsPlaylist.
        now rewrite Hfetch, Hparse, (new_Playlist_no_separator url m Hno).
    + left. unfold loadHlsPlaylist, loadHlsPlaylist_try, processHlsPlaylist.
      now rewrite Hfetch, Hparse.
  - left. unfold loadHlsPlaylist, loadHlsPlaylist_try. now rewrite Hfetch.
Qed.

Lemma processHlsPlaylist_state (st : ChunkManager) (url content : string) :
  fst (processHlsPlaylist st url content) = st
  \/ exists p,
       entry_ok (url, p)
       /\ fst (processHlsPlaylist st url content)
          = set_playlists st (Map_set url p (playlists st)).
Proof.
  destruct (parse content) as [m|e] eqn:Hparse.
  - destruct (occurs_dec "/"%char url) as [Hsep|Hno].
    + destruct (processHlsPlaylist_ok st url content m Hparse Hsep)
        as (p & _ & Hentry & _ & Hproc).
      right. exists p. split; [exact Hentry|]. now rewrite Hproc.
    + left. unfold processHlsPlaylist.
      now rewrite Hparse, (new_Playlist_no_separator url m Hno).
  - left. unfold processHlsPlaylist. now rewrite Hparse.
Qed.

(** X10: a successful [processHlsPlaylist(url, content)] makes the lookup
    of [url] return the new playlist, leaves the entries of all other urls
    as they were, keeps the place of [url] in the registry's order when it
    had one and puts it last when it had none, and processing the same
    content again changes nothing. *)
Theorem processHlsPlaylist_registers
  (st : ChunkManager) (url content : string) (m : Manifest) :
  parse content = Ok m ->
  has_separator url ->
  let st' := fst (processHlsPlaylist st url content) in
  exists p,
    snd (processHlsPlaylist st url content) = Ok p
    /\ manifest p = m
    /\ Map_get url (playlists st') = Some p
    /\ (forall other, other <> url ->
          Map_get other (playlists st') = Map_get other (playlists st))
    /\ (In url (Map_keys (playlists st)) ->
        Map_keys (playlists st') = Map_keys (playlists st))
    /\ (~ In url (Map_keys (playlists st)) ->
        Map_keys (playlists st') = (Map_keys (playlists st) ++ [url])%list)
    /\ processHlsPlaylist st' url content = (st', Ok p).
Proof.
  intros Hparse Hsep st'.
  destruct (processHlsPlaylist_ok st url content m Hparse Hsep)
    as (p & Hp & _ & Hm & Hproc).
  exists p. unfold st'. rewrite Hproc. cbn [fst snd playlists set_playlists].
  split; [reflexivity|]. split; [exact Hm|].
  split; [apply Map_get_set_same|].
  split; [intros other Hne; now apply Map_get_set_other|].
  split; [apply Map_keys_set_present|].
  split; [apply Map_keys_set_absent|].
  unfold processHlsPlaylist. rewrite Hparse, Hp.
  unfold set_playlists. cbn [playlists chunk]. now rewrite Map_set_twice.
Qed.

Lemma registry_wf_set (st : ChunkManager) (url : string) (p : Playlist) :
  registry_wf st -> entry_ok (url, p) ->
  registry_wf (set_playlists st (Map_set url p (playlists st))).
Proof.
  intros [Hnd Hall] Hentry. split; cbn [playlists set_playlists].
  - now apply Map_set_NoDup.
  - apply Forall_forall. intros entry Hin.
    destruct (Map_set_entries url p (playlists st) entry Hin) as [->|Hold];
      [exact Hentry|].
    now apply (proj1 (Forall_forall _ _) Hall).
Qed.

Lemma registry_wf_delete (st : ChunkManager) (url : string) :
  registry_wf st ->
  registry_wf (set_playlists st (Map_delete url (playlists st))).
Proof.
  intros [Hnd Hall]. split; cbn [playlists set_playlists].
  - now apply Map_delete_NoDup.
  - apply Forall_forall. intros entry Hin.
    apply (proj1 (Forall_forall _ _) Hall).
    now apply (Map_delete_entries url).
Qed.

(** X11: the registry stays in order under every operation: if it has one
    entry per url, each filed under its playlist's own url with [baseUrl]
    the url up to and including its last "/", then so it has after
    [processHlsPlaylist], after [loadHlsPlaylist] (succeeding or failing),
    and after any sequence of chunk calls and transport events. *)
Theorem registry_stays_well_formed (st : ChunkManager) :
  registry_wf st ->
  (forall url content, registry_wf (fst (processHlsPlaylist st url content)))
  /\ (forall url, registry_wf (fst (loadHlsPlaylist st url)))
  /\ (forall ops, registry_wf (fst (run st ops))).
Proof.
  intros Hwf. split; [|split].
  - intros url content.
    destruct (processHlsPlaylist_state st url content)
      as [->|(p & Hentry & ->)]; [exact Hwf | now apply registry_wf_set].
  - intros url.
    destruct (loadHlsPlaylist_state st url) as [->|(p & Hentry & ->)];
      [now apply registry_wf_delete | now apply registry_wf_set].
  - intros ops. unfold registry_wf. rewrite (run_keeps_playlists ops st).
    exact Hwf.
Qed.


(** X13: processing or loading a playlist never touches the pending chunk
    session: the slot is the same afterwards, whether the call succeeds or
    throws, and a transport event dispatched after it calls what it would
    have called before. *)
Theorem playlist_operations_keep_session
  (st : ChunkManager) (url content : string)
  (file : LoaderFile) (u : string) (error : Exn) :
  chunk (fst (processHlsPlaylist st url content)) = chunk st
  /\ chunk (fst (loadHlsPlaylist st url)) = chunk st
  /\ snd (onFileLoaded (fst (loadHlsPlaylist st url)) file)
     = snd (onFileLoaded st file)
  /\ snd (onFileError (fst (loadHlsPlaylist st url)) u error)
     = snd (onFileError st u error).
Proof.
  assert (Hp : chunk (fst (processHlsPlaylist st url content)) = chunk st).
  { destruct (processHlsPlaylist_state st url content)
      as [->|(p & _ & ->)]; reflexivity. }
  assert (Hl : chunk (fst (loadHlsPlaylist st url)) = chunk st).
  { destruct (loadHlsPlaylist_state st url) as [->|(p & _ & ->)];
      reflexivity. }
  split; [exact Hp|]. split; [exact Hl|].
  unfold onFileLoaded, onFileError, call_if_truthy. rewrite Hl.
  split; destruct (chunk st) as [c|]; try reflexivity.
  - destruct (String.eqb (chunk_url c) (file_url file)); [|reflexivity].
    cbn [fn_truthy]. destruct (outcome _ _); reflexivity.
  - destruct (String.eqb (chunk_url c) u); [|reflexivity].
    cbn [fn_truthy]. destruct (outcome _ _); reflexivity.
Qed.

Lemma Map_get_In_values {V : Type} k (v : V) m :
  Map_get k m = Some v -> In v (Map_values m).
Proof.
  unfold Map_values. induction m as [|[k0 v0] m IH]; simpl; [discriminate|].
  destruct (String.eqb k0 k); intros H.
  - inversion H. now left.
  - right. now apply IH.
Qed.

(** X14: once a playlist has been loaded, the absolute url of each of its
    segments is located in a stored playlist, so [loadChunk] for it never
    falls back to the single-file list; its target ends with the segment's
    uri. *)
Theorem loaded_segments_are_located
  (st : ChunkManager) (url content : string) (m : Manifest) (s : Segment) :
  fetchContent url = Ok content ->
  parse content = Ok m ->
  has_separator url ->
  In s (segments m) ->
  let st' := fst (loadHlsPlaylist st url) in
  exists p,
    Map_get url (playlists st') = Some p
    /\ manifest p = m
    /\ ~ unlocated st' (baseUrl p ++ uri s)
    /\ exists P i, located st' (baseUrl p ++ uri s) P i.
Proof.
  intros Hfetch Hparse Hsep Hin st'.
  destruct (loadHlsPlaylist_ok st url content m Hfetch Hparse Hsep)
    as (p & _ & _ & Hm & Hload).
  exists p. unfold st'. rewrite Hload. cbn [fst playlists set_playlists].
  assert (Hget : Map_get url (Map_set url p (playlists st)) = Some p)
    by apply Map_get_set_same.
  split; [exact Hget|]. split; [exact Hm|].
  assert (Hnot : ~ unlocated
                   (set_playlists st (Map_set url p (playlists st)))
                   (baseUrl p ++ uri s)).
  { intros Hun. specialize (Hun p (Map_get_In_values _ _ _ Hget)).
    unfold getChunkIndex in Hun.
    pose proof (proj1 (getChunkIndex_from_none _ _ 0 (Z.le_refl 0)) Hun)
      as Hall.
    rewrite Hm in Hall. specialize (Hall s Hin).
    apply endsWith_false in Hall. apply Hall. exists (baseUrl p).
    reflexivity. }
  split; [exact Hnot|].
  destruct (lookup_cases (set_playlists st (Map_set url p (playlists st)))
              (baseUrl p ++ uri s)) as [H|H]; [exact H | contradiction].
Qed.

(** X15: aborting with the target url of the load, rather than with the
    requested url, always cancels: after [loadChunk(u, ok, err)] and
    [abortChunk(t)] with [t] the target of [u], the slot is empty and no
    sequence of transport events calls a callback. *)
Theorem abort_by_target_cancels
  (st : ChunkManager) (u t : string) (ok err : Callback) (later : list Op) :
  targetUrl st u = Some t ->
  Forall (fun op => is_transport op = true) later ->
  let ops := CallLoadChunk u ok err :: CallAbortChunk t :: later in
  invocations (snd (run st ops)) = []
  /\ chunk (fst (run st ops)) = None.
Proof.
  intros Ht Hlater ops. unfold ops.
  destruct (step_load st u ok err) as (t' & files & key & Ht' & _ & Hstep).
  rewrite Ht in Ht'. inversion Ht'; subst t'. clear Ht'.
  cbn [run]. rewrite Hstep.
  assert (Hab : step (set_chunk st (Some (new_Chunk t ok err)))
                  (CallAbortChunk t)
                = (set_chunk st None, [])).
  { cbn [step]. unfold abortChunk. cbn [chunk set_chunk chunk_url].
    now rewrite String.eqb_refl. }
  rewrite Hab, (run_transport_empty later (set_chunk st None) Hlater eq_refl).
  split; reflexivity.
Qed.

(** X16: the last [loadChunk] wins: whatever calls and events came before,
    after [loadChunk(u, ok, err)] the pending session is the one for the
    target of [u] with exactly these callbacks, and nothing of an earlier
    session remains. *)
Theorem last_loadChunk_wins
  (st : ChunkManager) (before : list Op) (u t : string) (ok err : Callback) :
  targetUrl st u = Some t ->
  chunk (fst (run st (before ++ [CallLoadChunk u ok err])))
  = Some (new_Chunk t ok err).
Proof.
  intros Ht. rewrite run_app.
  destruct (run st before) as [st1 out1] eqn:Hrun.
  assert (Hreg : playlists st1 = playlists st).
  { pose proof (run_keeps_playlists before st) as H. now rewrite Hrun in H. }
  assert (Ht1 : targetUrl st1 u = Some t).
  { unfold targetUrl, getChunkLocation in *. now rewrite Hreg. }
  cbn [run].
  destruct (step_load st1 u ok err) as (t' & files & key & Ht' & _ & Hstep).
  rewrite Ht1 in Ht'. inversion Ht'; subst t'. rewrite Hstep. reflexivity.
Qed.


End ChunkManagerModel.

(** * A concrete registry: the scenarios of the specification *)

(** Integer-valued numbers, with their decimal text. *)
Definition z_truthy (z : Z) : bool := negb (z =? 0).

Definition z_to_string (z : Z) : string :=
  DecimalString.NilZero.string_of_int (Z.to_int z).

Definition seg (name : string) : Segment := mkSegment name 10.

(** A live playlist [a.ts, b.ts, c.ts] with a target duration and a media
    sequence, and its on-demand twin. *)
Definition live_manifest : Manifest :=
  mkManifest false [seg "a.ts"; seg "b.ts"; seg "c.ts"]
    None (Some 10) (Some 7) None.

Definition vod_manifest : Manifest :=
  mkManifest true [seg "a.ts"; seg "b.ts"; seg "c.ts"]
    (Some "VOD") (Some 10) None None.

Definition live_url : string := "http://host/path/live.m3u8".

Definition live_playlist : Playlist :=
  mkPlaylist live_url "http://host/path/" live_manifest.

(** A parser and a fetch that know three documents. *)
Definition sample_parse (content : string) : Result (@Manifest Z) :=
  if String.eqb content "live" then Ok live_manifest
  else if String.eqb content "vod" then Ok vod_manifest
  else Throw (ExternalError "malformed playlist").

Definition sample_fetch (url : string) : Result string :=
  if String.eqb url live_url then Ok "live"
  else if String.eqb url "http://host/path/vod.m3u8" then Ok "vod"
  else if String.eqb url "http://host/path/bad.m3u8" then Ok "garbage"
  else if String.eqb url "live.m3u8" then Ok "live"
  else Throw (ExternalError "network").

(** The manager after the live playlist has been processed. *)
Definition registry : @ChunkManager Z :=
  {| playlists := [(live_url, live_playlist)]; chunk := None |}.

(** A second rendition of the same stream, stored after the first. *)
Definition hd_url : string := "http://host/hd/live.m3u8".

Definition hd_playlist : Playlist :=
  mkPlaylist hd_url "http://host/hd/" live_manifest.

Definition registry_two : @ChunkManager Z :=
  {| playlists := [(live_url, live_playlist); (hd_url, hd_playlist)];
     chunk := None |}.

(** The registry with an entry left from an earlier load of a url whose
    document has since become malformed. *)
Definition bad_url : string := "http://host/path/bad.m3u8".

Definition registry_stale : @ChunkManager Z :=
  {| playlists :=
       [(live_url, live_playlist);
        (bad_url, mkPlaylist bad_url "http://host/path/" vod_manifest)];
     chunk := None |}.

(** Callbacks that return, and one (number 9) that throws. *)
Definition sample_outcome (f : Callback) (a : Arg) : Outcome :=
  if Nat.eqb f 9 then Throws (ThrownString "callback failed") else Returns.

Definition throwing_cb : Callback := 9%nat.

Definition ok_cb : Callback := 1%nat.
Definition err_cb : Callback := 2%nat.
Definition some_data : list Byte.byte := [Byte.x2a].

Definition vod_playlist : Playlist :=
  mkPlaylist "http://host/path/vod.m3u8" "http://host/path/" vod_manifest.

Definition b_url : string := "http://host/path/b.ts".

Definition b_file : LoaderFile :=
  {| file_url := b_url; file_data := some_data |}.

Definition c_file : LoaderFile :=
  {| file_url := "http://host/path/c.ts"; file_data := some_data |}.

Ltac find_separator := repeat first [left; reflexivity | right].

Ltac no_separator H :=
  cbn in H; repeat (destruct H as [H|H]; [discriminate H|]); exact H.

(** ** The scenarios of the specification, run on the model *)

Example registry_reached :
  processHlsPlaylist sample_parse new_ChunkManager live_url "live"
  = (registry, Ok live_playlist).
Proof. reflexivity. Qed.

Example registry_two_reached :
  processHlsPlaylist sample_parse registry hd_url "live"
  = (registry_two, Ok hd_playlist).
Proof. reflexivity. Qed.

Example scenario_limitable :
  limitedContentAvail live_playlist = true
  /\ getLimitedContent z_truthy z_to_string live_playlist 1
     = Ok (unlines ["#EXTM3U"; "#EXT-X-VERSION:3";
                    "#EXT-X-TARGETDURATION:10"; "#EXT-X-MEDIA-SEQUENCE:7";
                    "#EXTINF:10"; "a.ts"; "#EXTINF:10"; "b.ts"]).
Proof. split; reflexivity. Qed.

Example scenario_loadChunk :
  run sample_outcome registry
    [CallLoadChunk "http://host/path/b.ts" ok_cb err_cb;
     FileLoaded {| file_url := "http://host/path/b.ts";
                   file_data := some_data |};
     FileLoaded {| file_url := "http://host/path/b.ts";
                   file_data := some_data |}]
  = (registry,
     [LoaderLoad [new_LoaderFile "http://host/path/b.ts";
                  new_LoaderFile "http://host/path/c.ts"] live_url;
      Invoke ok_cb (ArgData some_data)]).
Proof. reflexivity. Qed.

(** ** Inputs at which the stated properties fail *)

(** C1 fails when the url is matched by suffix only: a url on another host
    is located in the live playlist, the session is keyed by
    [baseUrl + uri], [abortChunk] compares that key with the url and leaves
    the session, and the event for the target calls the callbacks. *)
Lemma abort_of_foreign_url_still_fires :
  let u := "http://cdn.example/b.ts" in
  let t := "http://host/path/b.ts" in
  targetUrl registry u = Some t
  /\ invoked ok_cb
       (snd (run sample_outcome registry
               [CallLoadChunk u ok_cb err_cb; CallAbortChunk u;
                FileLoaded {| file_url := t; file_data := some_data |}]))
     = true
  /\ invoked err_cb
       (snd (run sample_outcome registry
               [CallLoadChunk u ok_cb err_cb; CallAbortChunk u;
                FileError t (ExternalError "network")]))
     = true.
Proof. repeat split; reflexivity. Qed.

(** C2 fails when the two loads resolve to one target and share their
    callbacks: the event for u1's target is the event for u2's target, and
    it calls the function that was also given as [ok1] (or [err1]). *)
Lemma second_load_of_same_target_fires :
  let u1 := "http://cdn1.example/b.ts" in
  let u2 := "http://cdn2.example/b.ts" in
  let t := "http://host/path/b.ts" in
  u1 <> u2
  /\ targetUrl registry u1 = Some t
  /\ targetUrl registry u2 = Some t
  /\ invoked ok_cb
       (snd (run sample_outcome registry
               [CallLoadChunk u1 ok_cb err_cb; CallLoadChunk u2 ok_cb err_cb;
                FileLoaded {| file_url := t; file_data := some_data |}]))
     = true
  /\ invoked err_cb
       (snd (run sample_outcome registry
               [CallLoadChunk u1 ok_cb err_cb; CallLoadChunk u2 ok_cb err_cb;
                FileError t (ExternalError "network")]))
     = true.
Proof. repeat split; try reflexivity. discriminate. Qed.


(** C5 fails when two stored playlists both have a segment whose uri is a
    suffix of the url: the url of the second rendition's segment is located
    in the second playlist at index 1, but the lookup stops at the first
    playlist and the loader receives the first rendition's files. *)
Lemma later_playlist_is_not_used :
  let u := "http://host/hd/b.ts" in
  Map_get hd_url (playlists registry_two) = Some hd_playlist
  /\ getChunkIndex hd_playlist u = 1
  /\ loadChunk registry_two u ok_cb err_cb
     = Ok (set_chunk registry_two
             (Some (new_Chunk "http://host/path/b.ts" ok_cb err_cb)),
           [LoaderLoad [new_LoaderFile "http://host/path/b.ts";
                        new_LoaderFile "http://host/path/c.ts"] live_url])
  /\ loadChunk registry_two u ok_cb err_cb
     <> Ok (set_chunk registry_two
              (Some (new_Chunk "http://host/hd/b.ts" ok_cb err_cb)),
            [LoaderLoad [new_LoaderFile "http://host/hd/b.ts";
                         new_LoaderFile "http://host/hd/c.ts"] hd_url]).
Proof. repeat split; try reflexivity. discriminate. Qed.

(** ** The theorems at concrete inputs *)

Lemma abort_after_load_witness :
  targetUrl registry "http://host/path/b.ts" = Some "http://host/path/b.ts"
  /\ chunk (fst (run sample_outcome registry
                   [CallLoadChunk "http://host/path/b.ts" ok_cb err_cb;
                    CallAbortChunk "http://host/path/b.ts"])) = None.
Proof.
  split; [reflexivity|].
  exact (proj1 (proj1 (proj2 (abort_after_load sample_outcome registry
                                "http://host/path/b.ts" "http://host/path/b.ts"
                                ok_cb err_cb some_data TypeError eq_refl))
                  eq_refl)).
Defined.

Lemma superseded_session_witness :
  targetUrl registry "http://host/path/a.ts" = Some "http://host/path/a.ts"
  /\ targetUrl registry "http://host/path/b.ts" = Some "http://host/path/b.ts"
  /\ invocations
       (snd (run sample_outcome registry
               [CallLoadChunk "http://host/path/a.ts" ok_cb err_cb;
                CallLoadChunk "http://host/path/b.ts" 3%nat 4%nat;
                FileLoaded {| file_url := "http://host/path/a.ts";
                              file_data := some_data |}])) = [].
Proof.
  split; [reflexivity|]. split; [reflexivity|].
  refine (proj1 (proj1 (proj2 (proj2 (superseded_session sample_outcome registry
            "http://host/path/a.ts" "http://host/path/b.ts"
            "http://host/path/a.ts" "http://host/path/b.ts"
            ok_cb err_cb 3%nat 4%nat some_data TypeError eq_refl eq_refl)))
            _)).
  discriminate.
Defined.


Lemma loadHlsPlaylist_failure_witness :
  loadHlsPlaylist z_truthy z_to_string sample_parse sample_fetch
    registry_stale bad_url
  = (registry, Throw (ExternalError "malformed playlist"))
  /\ Map_get bad_url (playlists registry) = None
  /\ Map_get live_url (playlists registry)
     = Map_get live_url (playlists registry_stale).
Proof.
  split; [reflexivity|].
  destruct (proj1 (loadHlsPlaylist_failure z_truthy z_to_string sample_parse
                     sample_fetch registry_stale bad_url
                     (ExternalError "malformed playlist"))
              registry eq_refl) as (_ & Hgone & Hothers & _).
  split; [exact Hgone|].
  apply Hothers. discriminate.
Defined.

Lemma loadChunk_candidate_files_witness :
  located registry "http://host/path/b.ts" live_playlist 1
  /\ exists s,
      nth_error (segments live_manifest) 1 = Some s
      /\ loadChunk registry "http://host/path/b.ts" ok_cb err_cb
         = Ok (set_chunk registry
                 (Some (new_Chunk ("http://host/path/" ++ uri s)
                          ok_cb err_cb)),
               [LoaderLoad [new_LoaderFile "http://host/path/b.ts";
                            new_LoaderFile "http://host/path/c.ts"]
                  live_url]).
Proof.
  assert (H : located registry "http://host/path/b.ts" live_playlist 1).
  { exists [], []. repeat split; try reflexivity; [intros Q [] | lia]. }
  split; [exact H|].
  exact (proj2 (proj1 (loadChunk_candidate_files registry
                         "http://host/path/b.ts" ok_cb err_cb)
                  live_playlist 1 H)).
Defined.

Lemma getLimitedContent_truncated_witness :
  endList (manifest live_playlist) = false
  /\ getLimitedContent z_truthy z_to_string live_playlist 1
     = Ok (unlines ["#EXTM3U"; "#EXT-X-VERSION:3";
                    "#EXT-X-TARGETDURATION:10"; "#EXT-X-MEDIA-SEQUENCE:7";
                    "#EXTINF:10"; "a.ts"; "#EXTINF:10"; "b.ts"]).
Proof.
  split; [reflexivity|].
  refine (proj1 (getLimitedContent_truncated z_truthy z_to_string
                   live_playlist 1 eq_refl _ _)).
  - simpl. lia.
  - simpl. lia.
Defined.

Lemma loadHlsPlaylist_success_witness :
  has_separator live_url
  /\ loadHlsPlaylist z_truthy z_to_string sample_parse sample_fetch
       new_ChunkManager live_url
     = (registry,
        Ok (unlines ["#EXTM3U"; "#EXT-X-VERSION:3";
                     "#EXT-X-TARGETDURATION:10"; "#EXT-X-MEDIA-SEQUENCE:7";
                     "#EXTINF:10"; "a.ts"; "#EXTINF:10"; "b.ts"])).
Proof.
  assert (Hsep : has_separator live_url) by (cbn; find_separator).
  split; [exact Hsep|].
  destruct (loadHlsPlaylist_success z_truthy z_to_string sample_parse
              sample_fetch new_ChunkManager live_url "live" live_manifest
              eq_refl eq_refl Hsep) as (p & Hp & _ & _ & _ & Hlive & _).
  inversion Hp; subst p.
  destruct (Hlive eq_refl) as [Hload Hdoc].
  rewrite Hload, Hdoc. reflexivity.
Defined.

Lemma getChunkIndex_lowest_suffix_witness :
  getChunkIndex live_playlist "http://cdn.example/b.ts" = 1
  /\ getChunkIndex live_playlist "http://host/path/d.ts" = -1.
Proof.
  destruct (getChunkIndex_lowest_suffix live_playlist "http://cdn.example/b.ts")
    as (Hfound & _ & _).
  destruct (getChunkIndex_lowest_suffix live_playlist "http://host/path/d.ts")
    as (_ & Hnone & _).
  split.
  - apply (Hfound 1%nat). split.
    + exists (seg "b.ts"). split; [reflexivity|].
      exists "http://cdn.example/". reflexivity.
    + intros [|j] s' Hj Hn; [|lia]. inversion Hn; subst s'.
      apply endsWith_false. reflexivity.
  - apply Hnone. intros s Hin. apply endsWith_false.
    cbn in Hin. destruct Hin as [<-|[<-|[<-|[]]]]; reflexivity.
Defined.

Lemma playlist_baseUrl_or_throw_witness :
  has_separator live_url
  /\ ~ has_separator "live.m3u8"
  /\ (exists p, new_Playlist live_url live_manifest = Ok p
                /\ baseUrl p = "http://host/path/")
  /\ new_Playlist "live.m3u8" live_manifest
     = Throw (ThrownString "Unexpected playlist URL format")
  /\ exists e, processHlsPlaylist sample_parse registry "live.m3u8" "live"
               = (registry, Throw e).
Proof.
  assert (Hsep : has_separator live_url) by (cbn; find_separator).
  assert (Hno : ~ has_separator "live.m3u8") by (intros H; no_separator H).
  split; [exact Hsep|]. split; [exact Hno|].
  destruct (playlist_baseUrl_or_throw sample_parse registry
              live_url "live" live_manifest) as [Hyes _].
  destruct (playlist_baseUrl_or_throw sample_parse registry
              "live.m3u8" "live" live_manifest) as [_ Hthrow].
  split.
  - destruct (Hyes Hsep) as (p & pre & rest & Hp & _).
    exists p. split; [exact Hp|]. inversion Hp. reflexivity.
  - exact (Hthrow Hno).
Defined.

Lemma getLimitedContent_limit_beyond_witness :
  endList (manifest live_playlist) = false
  /\ getLimitedContent z_truthy z_to_string live_playlist 5
     = Ok (unlines ["#EXTM3U"; "#EXT-X-VERSION:3";
                    "#EXT-X-TARGETDURATION:10"; "#EXT-X-MEDIA-SEQUENCE:7"]).
Proof.
  split; [reflexivity|].
  refine (proj2 (getLimitedContent_limit_beyond z_truthy z_to_string
                   live_playlist 5 eq_refl _ _)).
  - simpl. lia.
  - simpl. lia.
Defined.

(** ** The further properties at concrete inputs *)

Lemma getLimitedContent_refuses_exactly_witness :
  getLimitedContent z_truthy z_to_string vod_playlist 1
  = Throw (ThrownString
             "Limited content allowed only for Live playlist with segments").
Proof.
  apply (proj2 (getLimitedContent_refuses_exactly z_truthy z_to_string
                  vod_playlist 1)).
  left. reflexivity.
Defined.

Lemma getLimitedContent_negative_limit_witness :
  getLimitedContent z_truthy z_to_string live_playlist (-1) = Throw TypeError.
Proof.
  apply (proj2 (getLimitedContent_negative_limit z_truthy z_to_string
                  live_playlist (-1))).
  split; [reflexivity|]. split; [simpl; lia | lia].
Defined.

Lemma callbacks_return_once_per_load_witness :
  (length (returned sample_outcome
             (invocations
                (snd (run sample_outcome registry
                        [CallLoadChunk b_url throwing_cb err_cb;
                         FileLoaded b_file; FileLoaded b_file]))))
   <= 1)%nat
  /\ (length (invocations
                (snd (run (fun _ _ => Returns) registry
                        [CallLoadChunk b_url ok_cb err_cb;
                         FileLoaded b_file; FileLoaded b_file])))
      <= 1)%nat.
Proof.
  split.
  - exact (proj1 (callbacks_return_once_per_load sample_outcome
                    [CallLoadChunk b_url throwing_cb err_cb;
                     FileLoaded b_file; FileLoaded b_file] registry)).
  - exact (proj2 (proj2 (callbacks_return_once_per_load (fun _ _ => Returns)
                           [CallLoadChunk b_url ok_cb err_cb;
                            FileLoaded b_file; FileLoaded b_file] registry))
             (fun _ _ => eq_refl)).
Defined.

Lemma loadChunk_completes_once_witness :
  targetUrl registry b_url = Some b_url
  /\ sample_outcome ok_cb (ArgData some_data) = Returns
  /\ invocations
       (snd (run sample_outcome registry
               (CallLoadChunk b_url ok_cb err_cb
                :: [FileLoaded c_file] ++ FileLoaded b_file
                :: [FileLoaded b_file; FileError b_url TypeError])))
     = [(ok_cb, ArgData some_data)].
Proof.
  split; [reflexivity|]. split; [reflexivity|].
  refine (proj1 (proj1 (proj2 (proj2
            (loadChunk_completes_once sample_outcome registry b_url b_url
               ok_cb err_cb [FileLoaded c_file]
               [FileLoaded b_file; FileError b_url TypeError]
               some_data TypeError eq_refl _ _))) eq_refl)).
  - constructor; [|constructor]. split; [reflexivity|]. discriminate.
  - repeat constructor.
Defined.

Lemma abortChunk_clears_its_key_witness :
  let st := set_chunk registry (Some (new_Chunk b_url ok_cb err_cb)) in
  ~ session_matches registry "http://host/path/a.ts"
  /\ abortChunk registry "http://host/path/a.ts" = registry
  /\ invocations
       (snd (run sample_outcome st [CallAbortChunk b_url; FileLoaded b_file]))
     = [].
Proof.
  assert (Hno : ~ session_matches registry "http://host/path/a.ts")
    by (intros (c & Hc & _); discriminate Hc).
  split; [exact Hno|]. split.
  - exact (proj1 (proj2 (proj2 (proj2
             (abortChunk_clears_its_key sample_outcome registry
                "http://host/path/a.ts"
                some_data TypeError)))) Hno).
  - exact (proj1 (proj2
             (abortChunk_clears_its_key sample_outcome
                (set_chunk registry (Some (new_Chunk b_url ok_cb err_cb)))
                b_url some_data TypeError))).
Defined.

Lemma segment_url_locates_segment_witness :
  nth_error (segments (manifest live_playlist)) 1 = Some (seg "b.ts")
  /\ getChunkIndex live_playlist b_url = 1.
Proof.
  split; [reflexivity|].
  refine (proj2 (segment_url_locates_segment live_playlist 1 (seg "b.ts")
                   eq_refl) _).
  intros [|j] s' Hj Hs'; [|lia]. inversion Hs'; subst s'.
  apply endsWith_false. reflexivity.
Defined.

Lemma processHlsPlaylist_registers_witness :
  has_separator hd_url
  /\ Map_keys
       (playlists (fst (processHlsPlaylist sample_parse registry hd_url
                          "live")))
     = [live_url; hd_url].
Proof.
  assert (Hsep : has_separator hd_url) by (cbn; find_separator).
  split; [exact Hsep|].
  destruct (processHlsPlaylist_registers sample_parse registry hd_url "live"
              live_manifest eq_refl Hsep)
    as (p & _ & _ & _ & _ & _ & Hnew & _).
  apply Hnew. intros [H|[]]. discriminate H.
Defined.

Lemma registry_stays_well_formed_witness :
  registry_wf (@new_ChunkManager Z)
  /\ registry_wf
       (fst (loadHlsPlaylist z_truthy z_to_string sample_parse sample_fetch
               new_ChunkManager live_url)).
Proof.
  assert (H0 : registry_wf (@new_ChunkManager Z))
    by (split; constructor).
  split; [exact H0|].
  exact (proj1 (proj2 (registry_stays_well_formed z_truthy z_to_string
                         sample_parse sample_fetch sample_outcome
                         new_ChunkManager H0))
           live_url).
Defined.


Lemma loaded_segments_are_located_witness :
  has_separator live_url
  /\ exists P i,
       located
         (fst (loadHlsPlaylist z_truthy z_to_string sample_parse sample_fetch
                 new_ChunkManager live_url))
         b_url P i.
Proof.
  assert (Hsep : has_separator live_url) by (cbn; find_separator).
  split; [exact Hsep|].
  destruct (loaded_segments_are_located z_truthy z_to_string sample_parse
              sample_fetch new_ChunkManager live_url "live" live_manifest
              (seg "b.ts") eq_refl eq_refl Hsep
              (or_intror (or_introl eq_refl)))
    as (p & Hget & _ & _ & Hloc).
  inversion Hget; subst p. exact Hloc.
Defined.

Lemma abort_by_target_cancels_witness :
  targetUrl registry "http://cdn.example/b.ts" = Some b_url
  /\ invocations
       (snd (run sample_outcome registry
               [CallLoadChunk "http://cdn.example/b.ts" ok_cb err_cb;
                CallAbortChunk b_url; FileLoaded b_file])) = [].
Proof.
  split; [reflexivity|].
  refine (proj1 (abort_by_target_cancels sample_outcome registry
                   "http://cdn.example/b.ts"
                   b_url ok_cb err_cb [FileLoaded b_file] eq_refl _)).
  repeat constructor.
Defined.

Lemma last_loadChunk_wins_witness :
  targetUrl registry b_url = Some b_url
  /\ chunk (fst (run sample_outcome registry
                   ([CallLoadChunk "http://host/path/a.ts" ok_cb err_cb;
                     FileLoaded c_file]
                    ++ [CallLoadChunk b_url 3%nat 4%nat])))
     = Some (new_Chunk b_url 3%nat 4%nat).
Proof.
  split; [reflexivity|].
  exact (last_loadChunk_wins sample_outcome registry
           [CallLoadChunk "http://host/path/a.ts" ok_cb err_cb;
            FileLoaded c_file]
           b_url b_url 3%nat 4%nat eq_refl).
Defined.
